(** * Zakkirni: a static browser of remembrance texts

    Shallow embedding of [App.tsx] (audio coordinator, header back button,
    content card actions, the two data pages) and of [types.ts], followed by
    the properties of the specification that are settled against it.

    Representation choices

    - A JavaScript string is represented by the bytes of its UTF-8 encoding
      ([string]); the texts of the application are well-formed Unicode, for
      which concatenation and [===] agree with concatenation and equality of
      the encodings.
    - [window], the React state of [AudioProvider] and the router location
      are gathered in one record [World]; every handler of the source is a
      computation in a state-and-exception monad over it.
    - Closures stored on an utterance are defunctionalised ([Handler]).
    - The browser is the environment: it delivers the [start], [end] and
      [error] notifications of utterances, in any order. *)

From Stdlib Require Import String Ascii List Bool Arith ZArith Lia.
From Stdlib Require QArith.
Import ListNotations.
Local Open Scope string_scope.

(** ** JavaScript runtime *)

Module JS.

Inductive Exn :=
| TypeError (message : string).

Inductive result (A : Type) :=
| Ok (a : A)
| Throw (e : Exn).
Arguments Ok {A} a.
Arguments Throw {A} e.

(** [a === b] on values that are a string or [null]/[undefined]. *)
Definition strict_eq (a b : option string) : bool :=
  match a, b with
  | Some x, Some y => String.eqb x y
  | None, None => true
  | _, _ => false
  end.

(** [a || b] on values that are an object or [undefined]. *)
Definition or_else {A} (a b : option A) : option A :=
  match a with
  | Some _ => a
  | None => b
  end.

(** [`${v}`] for a value that is a string or [undefined]. *)
Definition template (v : option string) : string :=
  match v with
  | Some s => s
  | None => "undefined"
  end.

(** [s.includes(sub)] *)
Fixpoint includes (s sub : string) : bool :=
  if String.prefix sub s then true
  else match s with
       | EmptyString => false
       | String _ rest => includes rest sub
       end.

(** [s.split(sep)] for a separator of one character. *)
Fixpoint split (sep : ascii) (s : string) : list string :=
  match s with
  | EmptyString => [EmptyString]
  | String c rest =>
      if Ascii.eqb c sep then EmptyString :: split sep rest
      else match split sep rest with
           | seg :: segs => String c seg :: segs
           | [] => [String c EmptyString]
           end
  end.

(** [Boolean(s)] on a string: the empty string is the only falsy one. *)
Definition Boolean (s : string) : bool :=
  negb (String.eqb s "").

(** The characters [encodeURIComponent] leaves as they are:
    [A-Z a-z 0-9 - _ . ! ~ * ' ( )]. *)
Definition uriUnreserved (c : ascii) : bool :=
  let n := nat_of_ascii c in
  ((65 <=? n)%nat && (n <=? 90)%nat) || ((97 <=? n)%nat && (n <=? 122)%nat)
  || ((48 <=? n)%nat && (n <=? 57)%nat)
  || existsb (Nat.eqb n) [45; 95; 46; 33; 126; 42; 39; 40; 41].

Definition hexDigit (n : nat) : ascii :=
  if (n <? 10)%nat then ascii_of_nat (48 + n) else ascii_of_nat (55 + n).

Definition percentEncode (c : ascii) : string :=
  let n := nat_of_ascii c in
  String "%" (String (hexDigit (n / 16)) (String (hexDigit (n mod 16)) EmptyString)).

(** [encodeURIComponent(s)]: every byte of the UTF-8 encoding that is not
    an unreserved character becomes [%XX] with upper-case digits. A string
    with an unpaired surrogate, on which the function throws [URIError], has
    no UTF-8 encoding and is not represented. *)
Fixpoint encodeURIComponent (s : string) : string :=
  match s with
  | EmptyString => EmptyString
  | String c rest =>
      (if uriUnreserved c then String c EmptyString else percentEncode c)
        ++ encodeURIComponent rest
  end.

Definition hexValue (c : ascii) : option nat :=
  let n := nat_of_ascii c in
  if (48 <=? n)%nat && (n <=? 57)%nat then Some (n - 48)
  else if (65 <=? n)%nat && (n <=? 70)%nat then Some (n - 55)
  else if (97 <=? n)%nat && (n <=? 102)%nat then Some (n - 87)
  else None.

(** [decodeURIComponent(s)] down to the bytes of the result; [None] is a
    malformed escape. The recursion is on a bound of the length. *)
Fixpoint decodeBytes (fuel : nat) (s : string) : option string :=
  match fuel with
  | O => match s with EmptyString => Some EmptyString | _ => None end
  | S fuel' =>
      match s with
      | EmptyString => Some EmptyString
      | String c rest =>
          if Ascii.eqb c "%" then
            match rest with
            | String h (String l rest') =>
                match hexValue h, hexValue l, decodeBytes fuel' rest' with
                | Some a, Some b, Some r =>
                    Some (String (ascii_of_nat (16 * a + b)) r)
                | _, _, _ => None
                end
            | _ => None
            end
          else
            match decodeBytes fuel' rest with
            | Some r => Some (String c r)
            | None => None
            end
      end
  end.

Definition decodeURIComponent (s : string) : option string :=
  decodeBytes (String.length s) s.

End JS.

Import JS.

(** ** types.ts *)

Record Item := mkItem {
  item_id : string;
  item_text : string;
  item_source : option string;
  item_count : option nat;
  item_note : option string
}.

Record Category := mkCategory {
  category_id : string;
  category_title : string;
  category_icon : option string;
  category_items : list Item
}.

Record Section := mkSection {
  section_id : string;
  section_title : string;
  section_description : string;
  section_categories : list Category
}.

(** ** The browser objects the application talks to *)

Record SpeechSynthesisVoice := mkVoice {
  voice_name : string;
  voice_lang : string
}.

(** The three closures [play] installs on an utterance. *)
Inductive Handler :=
| SetPlaying (id : string)  (* () => { setPlayingId(id); } *)
| ClearPlaying              (* () => { setPlayingId(null); utteranceRef.current = null; } *)
| LogAndClear.              (* (e) => { console.error("TTS Error:", e); setPlayingId(null);
                                        utteranceRef.current = null; } *)

Record SpeechSynthesisUtterance := mkUtterance {
  uid : nat;                       (* identity of the object *)
  utt_text : string;
  utt_lang : string;
  utt_rate : QArith_base.Q;
  utt_voice : option SpeechSynthesisVoice;
  onstart : option Handler;
  onend : option Handler;
  onerror : option Handler
}.

Record SpeechSynthesis := mkSynth {
  queue : list SpeechSynthesisUtterance;  (* head: spoken now or next *)
  voices : list SpeechSynthesisVoice      (* what getVoices() returns *)
}.

Record World := mkWorld {
  speechSynthesis : option SpeechSynthesis;  (* [None]: not a property of window *)
  alerts : list string;                      (* alert(message), latest first *)
  console_errors : list (string * string);   (* console.error(label, e), latest first *)
  opened : list (string * string);           (* window.open(url, target), latest first *)
  location_pathname : string;                (* useLocation().pathname *)
  playingId : option string;                 (* useState<string | null>(null) *)
  utteranceRef : option SpeechSynthesisUtterance;  (* useRef(null).current *)
  allocated : nat                            (* utterance objects created so far *)
}.

Definition with_speechSynthesis (v : option SpeechSynthesis) (w : World) : World :=
  mkWorld v (alerts w) (console_errors w) (opened w) (location_pathname w)
          (playingId w) (utteranceRef w) (allocated w).

Definition with_alerts (v : list string) (w : World) : World :=
  mkWorld (speechSynthesis w) v (console_errors w) (opened w) (location_pathname w)
          (playingId w) (utteranceRef w) (allocated w).

Definition with_console_errors (v : list (string * string)) (w : World) : World :=
  mkWorld (speechSynthesis w) (alerts w) v (opened w) (location_pathname w)
          (playingId w) (utteranceRef w) (allocated w).

Definition with_opened (v : list (string * string)) (w : World) : World :=
  mkWorld (speechSynthesis w) (alerts w) (console_errors w) v (location_pathname w)
          (playingId w) (utteranceRef w) (allocated w).

Definition with_location_pathname (v : string) (w : World) : World :=
  mkWorld (speechSynthesis w) (alerts w) (console_errors w) (opened w) v
          (playingId w) (utteranceRef w) (allocated w).

Definition with_playingId (v : option string) (w : World) : World :=
  mkWorld (speechSynthesis w) (alerts w) (console_errors w) (opened w)
          (location_pathname w) v (utteranceRef w) (allocated w).

Definition with_utteranceRef (v : option SpeechSynthesisUtterance) (w : World) : World :=
  mkWorld (speechSynthesis w) (alerts w) (console_errors w) (opened w)
          (location_pathname w) (playingId w) v (allocated w).

Definition with_allocated (v : nat) (w : World) : World :=
  mkWorld (speechSynthesis w) (alerts w) (console_errors w) (opened w)
          (location_pathname w) (playingId w) (utteranceRef w) v.

(** The utterances waiting in or spoken by the engine; none without one. *)
Definition pending (w : World) : list SpeechSynthesisUtterance :=
  match speechSynthesis w with
  | Some ss => queue ss
  | None => []
  end.

(** ** Handlers as computations *)

Definition M (A : Type) : Type := World -> result (A * World).

Definition ret {A} (a : A) : M A := fun w => Ok (a, w).

Definition bind {A B} (m : M A) (k : A -> M B) : M B :=
  fun w => match m w with
           | Ok (a, w') => k a w'
           | Throw e => Throw e
           end.

Declare Scope js_scope.
Delimit Scope js_scope with js.
Notation "x <- m ;; k" := (bind m (fun x => k))
  (at level 61, m at next level, right associativity) : js_scope.
Notation "m ;; k" := (bind m (fun _ => k))
  (at level 61, right associativity) : js_scope.
Local Open Scope js_scope.

Definition modify (f : World -> World) : M unit := fun w => Ok (tt, f w).

(** Reading [window.speechSynthesis.m] where [speechSynthesis] is undefined
    throws. *)
Definition undefined_property (m : string) : Exn :=
  TypeError ("Cannot read properties of undefined (reading '" ++ m ++ "')").

Definition speechSynthesis_cancel : M unit :=
  fun w => match speechSynthesis w with
           | Some ss => Ok (tt, with_speechSynthesis (Some (mkSynth [] (voices ss))) w)
           | None => Throw (undefined_property "cancel")
           end.

Definition speechSynthesis_getVoices : M (list SpeechSynthesisVoice) :=
  fun w => match speechSynthesis w with
           | Some ss => Ok (voices ss, w)
           | None => Throw (undefined_property "getVoices")
           end.

Definition speechSynthesis_speak (u : SpeechSynthesisUtterance) : M unit :=
  fun w => match speechSynthesis w with
           | Some ss =>
               Ok (tt, with_speechSynthesis (Some (mkSynth (queue ss ++ [u]) (voices ss))) w)
           | None => Throw (undefined_property "speak")
           end.

(** ['speechSynthesis' in window]. [None] is the window without the
    property; a window that has the property with the value [undefined] is
    not represented. *)
Definition speechSynthesis_in_window : M bool :=
  fun w => Ok (match speechSynthesis w with Some _ => true | None => false end, w).

(** [new SpeechSynthesisUtterance(text)]: a fresh object with the defaults of
    the interface. *)
Definition new_SpeechSynthesisUtterance (text : string) : M SpeechSynthesisUtterance :=
  fun w => Ok (mkUtterance (allocated w) text "" (QArith_base.Qmake 1%Z 1%positive) None None None None,
               with_allocated (S (allocated w)) w).

Definition get_playingId : M (option string) := fun w => Ok (playingId w, w).
Definition setPlayingId (v : option string) : M unit := modify (with_playingId v).
Definition set_utteranceRef (v : option SpeechSynthesisUtterance) : M unit :=
  modify (with_utteranceRef v).
Definition alert (message : string) : M unit :=
  modify (fun w => with_alerts (message :: alerts w) w).
Definition console_error (label e : string) : M unit :=
  modify (fun w => with_console_errors ((label, e) :: console_errors w) w).
Definition window_open (url target : string) : M unit :=
  modify (fun w => with_opened ((url, target) :: opened w) w).
Definition get_location_pathname : M string := fun w => Ok (location_pathname w, w).
(** [navigate(to)] for a path without query or fragment: it becomes the
    pathname of the location. *)
Definition navigate (to : string) : M unit := modify (with_location_pathname to).

(** ** AudioProvider *)

(** The effect run once when the provider mounts: [loadVoices()], then
    [loadVoices] is registered for [voiceschanged]. [loadVoices] only calls
    [getVoices()] and drops the result. *)
Definition loadVoices : M unit :=
  speechSynthesis_getVoices ;; ret tt.

Definition mount : M unit := loadVoices.

Definition stop : M unit :=
  speechSynthesis_cancel ;;
  setPlayingId None ;;
  set_utteranceRef None.

(** The voice [play] prefers: an Arabic Google voice, else an [ar-SA] voice,
    else any Arabic voice. *)
Definition arabicVoice (vs : list SpeechSynthesisVoice) : option SpeechSynthesisVoice :=
  or_else
    (or_else
       (find (fun v => includes (voice_lang v) "ar" && includes (voice_name v) "Google") vs)
       (find (fun v => includes (voice_lang v) "ar-SA") vs))
    (find (fun v => includes (voice_lang v) "ar") vs).

(** The utterance as [play] leaves it before [speak]: language, rate, voice
    when one was found, and the three callbacks. *)
Definition configure (id : string) (found : option SpeechSynthesisVoice)
           (u : SpeechSynthesisUtterance) : SpeechSynthesisUtterance :=
  mkUtterance (uid u) (utt_text u) "ar-SA" (QArith_base.Qmake 17%Z 20%positive)
              (match found with Some v => Some v | None => utt_voice u end)
              (Some (SetPlaying id)) (Some ClearPlaying) (Some LogAndClear).

Definition play (id text : string) : M unit :=
  current <- get_playingId ;;
  if strict_eq current (Some id) then
    stop
  else
    speechSynthesis_cancel ;;
    utterance <- new_SpeechSynthesisUtterance text ;;
    set_utteranceRef (Some utterance) ;;
    vs <- speechSynthesis_getVoices ;;
    let utterance := configure id (arabicVoice vs) utterance in
    (* the ref holds the object that was configured in place *)
    set_utteranceRef (Some utterance) ;;
    speechSynthesis_speak utterance.

(** Running a callback; [e] is the error code of the event for [onerror]. *)
Definition call (h : Handler) (e : string) : M unit :=
  match h with
  | SetPlaying id => setPlayingId (Some id)
  | ClearPlaying => setPlayingId None ;; set_utteranceRef None
  | LogAndClear =>
      console_error "TTS Error:" e ;;
      setPlayingId None ;;
      set_utteranceRef None
  end.

Definition dispatch (h : option Handler) (e : string) : M unit :=
  match h with
  | Some h => call h e
  | None => ret tt
  end.

(** ** Header *)

Definition handleBack : M unit :=
  pathname <- get_location_pathname ;;
  let pathSegments := filter Boolean (split "/" pathname) in
  if (1 <? length pathSegments)%nat then
    navigate ("/" ++ template (nth_error pathSegments 0))
  else
    navigate "/".

(** ** ContentCard *)

Definition isPlaying (item : Item) (w : World) : bool :=
  strict_eq (playingId w) (Some (item_id item)).

(** The literal ['\n\n']. *)
Definition blank_line : string := String "010" (String "010" EmptyString).

Definition attribution : string := "- من تطبيق ذكّرني".

Definition handleShare (item : Item) : M unit :=
  let url := "https://wa.me/?text="
             ++ encodeURIComponent ((item_text item ++ blank_line) ++ attribution) in
  window_open url "_blank".

Definition handleSpeak (item : Item) : M unit :=
  available <- speechSynthesis_in_window ;;
  if negb available then
    alert "عذراً، متصفحك لا يدعم القراءة الصوتية"
  else
    playing <- (fun w => Ok (isPlaying item w, w)) ;;
    if playing then stop else play (item_id item) (item_text item).

Inductive Icon := Square | Volume2 | CheckCircle | Copy | Share2.

Inductive Click := HandleSpeak | HandleCopy | HandleShare.

Record ActionButton := mkButton {
  icon : Icon;
  label : string;
  onClick : Click;
  variant : string
}.

(** What [item.count && type === 'azkar' && <div>…</div>] renders. *)
Inductive CountSlot :=
| NoCount                (* undefined or false: nothing *)
| BareNumber (n : nat)   (* a falsy number is rendered as it is *)
| CountBadge (n : nat).

Record Card := mkCard {
  card_text : string;
  card_source : option string;
  card_note : option string;
  card_count : CountSlot;
  card_actions : list ActionButton
}.

(** [type] is the value the page passes, a string or [undefined]; the cast to
    ['azkar' | 'adiyah'] is erased at run time. An empty [source] or [note]
    is falsy and not shown. *)
Definition ContentCard (item : Item) (type : option string)
           (playingId : option string) (copied : bool) : Card :=
  let isPlaying := strict_eq playingId (Some (item_id item)) in
  let shown (v : option string) :=
    match v with
    | Some s => if Boolean s then Some s else None
    | None => None
    end in
  mkCard
    (item_text item)
    (shown (item_source item))
    (shown (item_note item))
    (match item_count item with
     | None => NoCount
     | Some O => BareNumber O
     | Some n => if strict_eq type (Some "azkar") then CountBadge n else NoCount
     end)
    ((if strict_eq type (Some "azkar") then
        [mkButton (if isPlaying then Square else Volume2)
                  (if isPlaying then "إيقاف" else "استماع")
                  HandleSpeak
                  (if isPlaying then "primary" else "secondary")]
      else [])
     ++ [mkButton (if copied then CheckCircle else Copy)
                  (if copied then "تم النسخ" else "نسخ")
                  HandleCopy
                  "secondary"]
     ++ (if strict_eq type (Some "adiyah") then
           [mkButton Share2 (if isPlaying then "مشاركة" else "مشاركة")
                     HandleShare "outline"]
         else [])).

Definition offers (c : Click) (card : Card) : Prop :=
  exists b, In b (card_actions card) /\ onClick b = c.

(** ** Pages *)

Inductive Page :=
| Placeholder (message : string)
    (* <div className="p-10 text-center">message</div> *)
| CategoriesView (title description : string) (cards : list (Category * string))
    (* header, description, and per category its card and the path its click
       navigates to *)
| ItemsView (title : string) (cards : list (Item * option string)).
    (* header and per item the props of its ContentCard *)

Section Pages.

(** [APP_DATA] of [./data]. *)
Variable APP_DATA : list Section.

Definition SectionCategoriesPage (sectionId : option string) : Page :=
  let sectionData := find (fun s => strict_eq (Some (section_id s)) sectionId) APP_DATA in
  match sectionData with
  | None => Placeholder "القسم غير موجود"
  | Some sectionData =>
      CategoriesView
        (section_title sectionData)
        (section_description sectionData)
        (map (fun cat => (cat, "/" ++ template sectionId ++ "/" ++ category_id cat))
             (section_categories sectionData))
  end.

Definition ItemsListPage (sectionId categoryId : option string) : Page :=
  let section := find (fun s => strict_eq (Some (section_id s)) sectionId) APP_DATA in
  let category :=
    match section with
    | Some s => find (fun c => strict_eq (Some (category_id c)) categoryId)
                     (section_categories s)
    | None => None
    end in
  match category, section with
  | Some category, Some _ =>
      ItemsView (category_title category)
                (map (fun item => (item, sectionId)) (category_items category))
  | _, _ => Placeholder "المحتوى غير موجود"
  end.

End Pages.

(** ** The application as a transition system *)

Inductive Event :=
| Play (id text : string)                      (* play(id, text) *)
| Stop                                         (* stop() *)
| Speak (item : Item)                          (* click on the listen/stop button *)
| Share (item : Item)                          (* click on the share button *)
| Back                                         (* click on the back arrow *)
| Started (u : SpeechSynthesisUtterance)       (* the browser fires [start] on u *)
| Ended (u : SpeechSynthesisUtterance)         (* the browser fires [end] on u *)
| Errored (u : SpeechSynthesisUtterance) (e : string)  (* … [error] with code e *)
| VoicesChanged (vs : list SpeechSynthesisVoice).

(** An utterance that ended or failed has left the engine's queue. *)
Definition engine_drop (u : SpeechSynthesisUtterance) : M unit :=
  modify (fun w =>
            match speechSynthesis w with
            | Some ss =>
                with_speechSynthesis
                  (Some (mkSynth (filter (fun v => negb (uid v =? uid u)%nat) (queue ss))
                                 (voices ss))) w
            | None => w
            end).

Definition engine_voices (vs : list SpeechSynthesisVoice) : M unit :=
  modify (fun w =>
            match speechSynthesis w with
            | Some ss => with_speechSynthesis (Some (mkSynth (queue ss) vs)) w
            | None => w
            end).

Definition step (ev : Event) : M unit :=
  match ev with
  | Play id text => play id text
  | Stop => stop
  | Speak item => handleSpeak item
  | Share item => handleShare item
  | Back => handleBack
  | Started u => dispatch (onstart u) ""
  | Ended u => engine_drop u ;; dispatch (onend u) ""
  | Errored u e => engine_drop u ;; dispatch (onerror u) e
  | VoicesChanged vs => engine_voices vs ;; loadVoices
  end.

Fixpoint run (evs : list Event) : M unit :=
  match evs with
  | [] => ret tt
  | ev :: rest => step ev ;; run rest
  end.

(** The world when the page has just been loaded at [path]. *)
Definition page_load (ss : option SpeechSynthesis) (path : string) : World :=
  mkWorld ss [] [] [] path None None 0.

(** [play] is the only place that creates utterances and it configures each
    one before [speak]; these are the utterances the browser can notify
    about. *)
Definition from_play (u : SpeechSynthesisUtterance) : Prop :=
  exists id found fresh, u = configure id found fresh.

Definition admissible (ev : Event) : Prop :=
  match ev with
  | Started u | Ended u | Errored u _ => from_play u
  | _ => True
  end.

Inductive reachable : World -> Prop :=
| reachable_mount vs path w :
    mount (page_load (Some (mkSynth [] vs)) path) = Ok (tt, w) ->
    reachable w
| reachable_step w ev w' :
    reachable w ->
    admissible ev ->
    step ev w = Ok (tt, w') ->
    reachable w'.

(** The start notification of an utterance whose callback marks [id]. *)
Definition starts (id : string) (ev : Event) : Prop :=
  exists u, ev = Started u /\ onstart u = Some (SetPlaying id).

(** Two playing items have the same id, and of items with distinct ids at
    most one is playing. *)
Definition at_most_one_active (w : World) : Prop :=
  (forall a b : Item, isPlaying a w = true -> isPlaying b w = true -> item_id a = item_id b)
  /\ (forall items : list Item,
        NoDup (map item_id items) ->
        length (filter (fun item => isPlaying item w) items) <= 1).

(** What is left of the world for the provider: the active id, the ref and
    the engine. *)
Definition coordinator (w : World) :=
  (playingId w, utteranceRef w, speechSynthesis w).

(** The utterance [play id text] hands to the engine in world [w]. *)
Definition utterance_of (id text : string) (w : World) : SpeechSynthesisUtterance :=
  configure id
            (arabicVoice (match speechSynthesis w with Some ss => voices ss | None => [] end))
            (mkUtterance (allocated w) text "" (QArith_base.Qmake 1%Z 1%positive)
                         None None None None).

(** The world left by a computation that returned. *)
Definition returned (r : result (unit * World)) : option World :=
  match r with
  | Ok (_, w) => Some w
  | Throw _ => None
  end.

(** A character that can stand in a query string as it is, or the percent
    sign of an escape. *)
Definition uriSafe (c : ascii) : bool :=
  uriUnreserved c || Ascii.eqb c "%".

(** A segment of a path: not empty and without a slash. *)
Definition is_segment (s : string) : bool :=
  Boolean s && forallb (fun c => negb (Ascii.eqb c "/")) (list_ascii_of_string s).

(** ** A small store and browser to run the application on

    The store of the specification's scenario (section [azkar], category
    [azkar_morning], one item [m1]) with a second item and a section of
    supplications. *)

Definition m1 : Item := mkItem "m1" "..." None None None.

Definition m2 : Item := mkItem "m2" "سبحان الله وبحمده" None (Some 100) None.

Definition d1 : Item :=
  mkItem "d1" "ربنا آتنا في الدنيا حسنة" (Some "البقرة 201") None None.

Definition sample_store : list Section :=
  [ mkSection "azkar" "قسم الأذكار" "أذكار الصباح، المساء، النوم وغيرها"
              [ mkCategory "azkar_morning" "أذكار الصباح" (Some "sun") [m1; m2] ];
    mkSection "adiyah" "قسم الأدعية" "أدعية من القرآن والسنة"
              [ mkCategory "dua_quran" "أدعية قرآنية" None [d1] ] ].

Definition sample_voices : list SpeechSynthesisVoice :=
  [ mkVoice "Google US English" "en-US"; mkVoice "Microsoft Hoda" "ar-EG" ].

Definition sample_engine : SpeechSynthesis := mkSynth [] sample_voices.

(** The items page of the scenario, just loaded. *)
Definition sample_page : World :=
  page_load (Some sample_engine) "/azkar/azkar_morning".


(** The utterance of [m2] and the page while it is being spoken. *)
Definition m2_utterance : SpeechSynthesisUtterance :=
  utterance_of (item_id m2) (item_text m2) sample_page.

Definition busy_page : World :=
  mkWorld (Some (mkSynth [m2_utterance] sample_voices)) [] [] []
          "/azkar/azkar_morning" (Some "m2") (Some m2_utterance) 1.

(** ** The rest of the provider, the icons and the copy action *)

(** The cleanup of the mount effect. *)
Definition unmount : M unit := speechSynthesis_cancel.

(** What [play] sets on every utterance before [speak]: language, rate and
    the three callbacks. *)
Definition configured (u : SpeechSynthesisUtterance) : Prop :=
  utt_lang u = "ar-SA"
  /\ utt_rate u = QArith_base.Qmake 17%Z 20%positive
  /\ (exists id, onstart u = Some (SetPlaying id))
  /\ onend u = Some ClearPlaying
  /\ onerror u = Some LogAndClear.

Definition is_arabic (v : SpeechSynthesisVoice) : bool :=
  includes (voice_lang v) "ar".

Definition is_google_arabic (v : SpeechSynthesisVoice) : bool :=
  includes (voice_lang v) "ar" && includes (voice_name v) "Google".

Definition is_saudi (v : SpeechSynthesisVoice) : bool :=
  includes (voice_lang v) "ar-SA".

(** How many error notifications, and how many clicks on share, a run of
    events holds. *)
Definition is_error (ev : Event) : bool :=
  match ev with Errored _ _ => true | _ => false end.

Definition is_share (ev : Event) : bool :=
  match ev with Share _ => true | _ => false end.

(** The identifiers of [CategoryId] in [types.ts]. *)
Definition CategoryIds : list string :=
  [ "azkar_morning"; "azkar_evening"; "azkar_sleep"; "azkar_waking";
    "azkar_prayer"; "azkar_general";
    "dua_quran"; "dua_sunnah"; "dua_rizq"; "dua_faraj"; "dua_illness";
    "dua_general" ].

Module Lucide.

Inductive Glyph :=
| Sun | Moon | CloudSun | Coffee | CheckCircle | List
| BookOpen | Book | Sparkles | Shield | Heart | Smile.

End Lucide.

Record IconElement := mkIcon {
  glyph : Lucide.Glyph;
  icon_size : nat;
  icon_className : string
}.

(** The [switch] of [getIconForCategory]; the caller that gives no size gets
    24. *)
Definition getIconForCategory (id : string) (size : nat) : IconElement :=
  if String.eqb id "azkar_morning" then mkIcon Lucide.Sun size "text-amber-500"
  else if String.eqb id "azkar_evening" then mkIcon Lucide.Moon size "text-indigo-500"
  else if String.eqb id "azkar_sleep" then mkIcon Lucide.CloudSun size "text-slate-500"
  else if String.eqb id "azkar_waking" then mkIcon Lucide.Coffee size "text-orange-500"
  else if String.eqb id "azkar_prayer" then mkIcon Lucide.CheckCircle size "text-emerald-500"
  else if String.eqb id "azkar_general" then mkIcon Lucide.List size "text-teal-500"
  else if String.eqb id "dua_quran" then mkIcon Lucide.BookOpen size "text-emerald-600"
  else if String.eqb id "dua_sunnah" then mkIcon Lucide.Book size "text-green-600"
  else if String.eqb id "dua_rizq" then mkIcon Lucide.Sparkles size "text-yellow-500"
  else if String.eqb id "dua_faraj" then mkIcon Lucide.Shield size "text-blue-500"
  else if String.eqb id "dua_illness" then mkIcon Lucide.Heart size "text-rose-500"
  else if String.eqb id "dua_general" then mkIcon Lucide.Smile size "text-cyan-500"
  else mkIcon Lucide.BookOpen size "text-islamic-600".

(** The [variants] object of [ActionButton], by its own keys. *)
Definition variants : list (string * string) :=
  [ ("primary", "bg-islamic-600 text-white shadow-md hover:bg-islamic-700");
    ("secondary", "bg-islamic-50 text-islamic-700 hover:bg-islamic-100");
    ("outline", "border border-islamic-200 text-islamic-600 hover:bg-islamic-50") ].

Definition own_property (key : string) (object : list (string * string)) : option string :=
  option_map snd (find (fun entry => String.eqb (fst entry) key) object).

(** What the copy action touches: the clipboard of the navigator, the
    [copied] flag of the card and the timers the card has set. *)
Record Clipboard := mkClipboard {
  clipboard_text : option string;  (* what was last written, if anything *)
  write_allowed : bool             (* whether the promise of writeText resolves *)
}.

Record CardState := mkCardState {
  navigator_clipboard : option Clipboard;  (* [None]: undefined, as outside a secure context *)
  copied : bool;                           (* useState(false) *)
  timeouts : list nat                      (* delays of the pending setTimeout calls, oldest first *)
}.

(** [writeText] returns a promise the handler neither awaits nor catches. *)
Definition handleCopy (item : Item) (c : CardState) : result CardState :=
  match navigator_clipboard c with
  | None => Throw (undefined_property "writeText")
  | Some clipboard =>
      let clipboard :=
        if write_allowed clipboard then mkClipboard (Some (item_text item)) true
        else clipboard in
      Ok (mkCardState (Some clipboard) true (timeouts c ++ [2000]))
  end.

(** The oldest pending timer fires: [setCopied(false)]. *)
Definition timeout_fires (c : CardState) : CardState :=
  match timeouts c with
  | [] => c
  | _ :: rest => mkCardState (navigator_clipboard c) false rest
  end.

(** An utterance as [play] leaves it, with an Arabic voice if any. *)
Definition well_spoken (u : SpeechSynthesisUtterance) : Prop :=
  configured u /\ forall v, utt_voice u = Some v -> is_arabic v = true.

(** The page after [m1] preempted [m2] and started. *)
Definition m1_utterance : SpeechSynthesisUtterance :=
  utterance_of (item_id m1) (item_text m1) busy_page.

Definition preempted_page : World :=
  mkWorld (Some (mkSynth [m1_utterance] sample_voices)) [] [] []
          "/azkar/azkar_morning" (Some "m1") (Some m1_utterance) 2.

(** * Properties *)

(** ** Strict equality *)

Lemma strict_eq_Some_true (a : option string) (id : string) :
  strict_eq a (Some id) = true <-> a = Some id.
Proof.
  destruct a as [x|]; simpl.
  - rewrite String.eqb_eq. split; congruence.
  - split; discriminate.
Qed.

Lemma strict_eq_Some_false (a : option string) (id : string) :
  strict_eq a (Some id) = false <-> a <> Some id.
Proof.
  rewrite <- strict_eq_Some_true. destruct (strict_eq a (Some id)); split; congruence.
Qed.

Lemma strict_eq_refl (id : string) : strict_eq (Some id) (Some id) = true.
Proof. apply strict_eq_Some_true. reflexivity. Qed.

(** Turns the boolean tests on the active id in the context into equations. *)
Ltac strict_eq_prop :=
  repeat match goal with
         | H : strict_eq _ (Some _) = true |- _ => apply strict_eq_Some_true in H
         | H : strict_eq _ (Some _) = false |- _ => apply strict_eq_Some_false in H
         end.

(** ** What [stop] and [play] compute *)

Lemma stop_eq (w : World) (ss : SpeechSynthesis) :
  speechSynthesis w = Some ss ->
  stop w = Ok (tt, mkWorld (Some (mkSynth [] (voices ss))) (alerts w) (console_errors w)
                           (opened w) (location_pathname w) None None (allocated w)).
Proof.
  intros Hss. destruct w; simpl in Hss; subst.
  reflexivity.
Qed.

Lemma play_active_eq (w : World) (id text : string) :
  playingId w = Some id ->
  play id text w = stop w.
Proof.
  intros Hid. unfold play, bind, get_playingId. rewrite Hid, strict_eq_refl. reflexivity.
Qed.

Lemma play_inactive_eq (w : World) (ss : SpeechSynthesis) (id text : string) :
  speechSynthesis w = Some ss ->
  playingId w <> Some id ->
  play id text w =
    Ok (tt, mkWorld (Some (mkSynth [utterance_of id text w] (voices ss)))
                    (alerts w) (console_errors w) (opened w) (location_pathname w)
                    (playingId w) (Some (utterance_of id text w)) (S (allocated w))).
Proof.
  intros Hss Hid. apply strict_eq_Some_false in Hid.
  unfold play, bind, get_playingId. rewrite Hid.
  destruct w; simpl in Hss; subst.
  reflexivity.
Qed.

(** ** Toggle *)

(** C1 (as amended). With speech synthesis present, as in every reachable
    world: [play id text] on the active id is [stop]: it returns, empties
    the engine's queue and clears the active id and the ref. Hence a [play]
    on an id that is not active, the start notification of the utterance it
    queued, and a second [play] on the same id leave no id active and
    nothing queued. *)
Theorem play_toggles_off (w : World) (ss : SpeechSynthesis) (id text : string) :
  speechSynthesis w = Some ss ->
  (playingId w = Some id ->
   exists w', play id text w = Ok (tt, w')
              /\ playingId w' = None /\ utteranceRef w' = None /\ pending w' = [])
  /\ (playingId w <> Some id ->
      exists w1 u w3,
        play id text w = Ok (tt, w1)
        /\ pending w1 = [u]
        /\ run [Started u; Play id text] w1 = Ok (tt, w3)
        /\ playingId w3 = None /\ utteranceRef w3 = None /\ pending w3 = []).
Proof.
  intros Hss. split; intros Hid.
  - rewrite (play_active_eq _ _ _ Hid), (stop_eq _ _ Hss).
    eexists. repeat split.
  - rewrite (play_inactive_eq _ _ _ _ Hss Hid).
    do 3 eexists. split; [reflexivity|]. split; [reflexivity|].
    cbn [run step bind dispatch onstart utterance_of configure call].
    unfold setPlayingId, modify, with_playingId, bind. cbn [playingId].
    rewrite play_active_eq by reflexivity.
    erewrite stop_eq by reflexivity.
    cbn. repeat split.
Qed.

Lemma play_toggles_off_witness :
  (speechSynthesis busy_page = Some (mkSynth [m2_utterance] sample_voices)
   /\ playingId busy_page = Some "m2"
   /\ exists w', play "m2" "سبحان الله وبحمده" busy_page = Ok (tt, w')
                 /\ playingId w' = None /\ utteranceRef w' = None /\ pending w' = [])
  /\ (speechSynthesis sample_page = Some sample_engine
      /\ playingId sample_page <> Some "m1"
      /\ exists w1 u w3,
           play "m1" "..." sample_page = Ok (tt, w1)
           /\ pending w1 = [u]
           /\ run [Started u; Play "m1" "..."] w1 = Ok (tt, w3)
           /\ playingId w3 = None /\ utteranceRef w3 = None /\ pending w3 = []).
Proof.
  split; (split; [reflexivity|]).
  - split; [reflexivity|].
    apply (play_toggles_off busy_page (mkSynth [m2_utterance] sample_voices)
                            "m2" "سبحان الله وبحمده"); reflexivity.
  - split; [discriminate|].
    apply (play_toggles_off sample_page sample_engine "m1" "..."); [reflexivity|discriminate].
Defined.

(** C1 (as stated) fails when no start notification separates the two
    requests. On the page where [m2] is being spoken, two [play] on [m1] in a
    row leave [m2] in the active slot and an utterance of [m1] queued. *)
Lemma play_twice_in_a_row_keeps_slot :
  option_map (fun w => (playingId w, map utt_text (pending w)))
             (returned (run [Play "m1" "..."; Play "m1" "..."] busy_page))
  = Some (Some "m2", ["..."]).
Proof. vm_compute. reflexivity. Qed.

(** From the page just loaded, two [play] on [m1] in a row and then the start
    notification leave [m1] active: the second request restarted it. *)
Lemma play_twice_in_a_row_restarts :
  option_map playingId
             (returned (run [Play "m1" "..."; Play "m1" "...";
                             Started (utterance_of "m1" "..."
                                        (with_allocated 1 sample_page))] sample_page))
  = Some (Some "m1").
Proof. vm_compute. reflexivity. Qed.

(** ** The engine under the events *)

Lemma handleSpeak_eq (item : Item) (w : World) (ss : SpeechSynthesis) :
  speechSynthesis w = Some ss ->
  handleSpeak item w =
    if isPlaying item w then stop w else play (item_id item) (item_text item) w.
Proof.
  intros Hss. unfold handleSpeak, bind, speechSynthesis_in_window.
  rewrite Hss. cbn [negb]. destruct (isPlaying item w); reflexivity.
Qed.

Lemma play_returns (w : World) (ss : SpeechSynthesis) (id text : string) :
  speechSynthesis w = Some ss ->
  exists w' q,
    play id text w = Ok (tt, w')
    /\ speechSynthesis w' = Some (mkSynth q (voices ss))
    /\ (q = [] \/ q = [utterance_of id text w] /\ playingId w <> Some id)
    /\ (playingId w' = playingId w \/ playingId w' = None).
Proof.
  intros Hss. destruct (strict_eq (playingId w) (Some id)) eqn:E.
  - apply strict_eq_Some_true in E.
    rewrite (play_active_eq _ _ _ E), (stop_eq _ _ Hss).
    do 2 eexists. split; [reflexivity|]. cbn. auto.
  - apply strict_eq_Some_false in E.
    rewrite (play_inactive_eq _ _ _ _ Hss E).
    do 2 eexists. split; [reflexivity|]. cbn. auto.
Qed.

Lemma dispatch_eq (h : option Handler) (e : string) (w : World) :
  exists w',
    dispatch h e w = Ok (tt, w')
    /\ speechSynthesis w' = speechSynthesis w
    /\ (playingId w' = playingId w \/ playingId w' = None
        \/ exists id, h = Some (SetPlaying id) /\ playingId w' = Some id).
Proof.
  destruct h as [[id| |]|]; eexists; (split; [reflexivity|]); cbn;
    (split; [reflexivity|]).
  - right. right. exists id. auto.
  - auto.
  - auto.
  - auto.
Qed.

Lemma filter_none {A} (f : A -> bool) (l : list A) :
  (forall x, In x l -> f x = false) -> filter f l = [].
Proof.
  induction l as [|a l IH]; intros H; cbn; [reflexivity|].
  rewrite (H a (or_introl eq_refl)). apply IH. intros x Hx. apply H. right. exact Hx.
Qed.

Lemma filter_length_le {A} (f : A -> bool) (l : list A) :
  length (filter f l) <= length l.
Proof.
  induction l as [|a l IH]; cbn; [lia|].
  destruct (f a); cbn; lia.
Qed.

(** With speech synthesis present every event is handled without an
    exception, the engine stays, and a queue of at most one utterance stays
    one. *)
Lemma step_returns (ev : Event) (w : World) (ss : SpeechSynthesis) :
  speechSynthesis w = Some ss ->
  exists w' ss',
    step ev w = Ok (tt, w')
    /\ speechSynthesis w' = Some ss'
    /\ (length (queue ss) <= 1 -> length (queue ss') <= 1).
Proof.
  intros Hss. destruct ev as [id text| |item|item| |u|u|u e|vs]; cbn [step].
  - destruct (play_returns w ss id text Hss) as (w' & q & Hp & Hs & [->|[-> _]] & _);
      exists w'; eexists; (split; [exact Hp|]); (split; [exact Hs|]); cbn; lia.
  - rewrite (stop_eq _ _ Hss). do 2 eexists. split; [reflexivity|]. cbn. split; [reflexivity|cbn; lia].
  - rewrite (handleSpeak_eq _ _ _ Hss). destruct (isPlaying item w).
    + rewrite (stop_eq _ _ Hss). do 2 eexists. split; [reflexivity|]. cbn.
      split; [reflexivity|cbn; lia].
    + destruct (play_returns w ss (item_id item) (item_text item) Hss)
        as (w' & q & Hp & Hs & [->|[-> _]] & _);
        exists w'; eexists; (split; [exact Hp|]); (split; [exact Hs|]); cbn; lia.
  - do 2 eexists. split; [reflexivity|]. cbn. split; [exact Hss|auto].
  - unfold handleBack, bind, get_location_pathname.
    destruct (1 <? _)%nat; do 2 eexists; (split; [reflexivity|]); cbn; split; eauto.
  - destruct (dispatch_eq (onstart u) "" w) as (w' & Hd & Hs & _).
    exists w', ss. rewrite Hd, Hs. auto.
  - unfold bind, engine_drop, modify. rewrite Hss.
    destruct (dispatch_eq (onend u) ""
                (with_speechSynthesis
                   (Some (mkSynth (filter (fun v => negb (uid v =? uid u)%nat) (queue ss))
                                  (voices ss))) w)) as (w' & Hd & Hs & _).
    exists w'. eexists. rewrite Hd, Hs. split; [reflexivity|]. split; [reflexivity|].
    cbn. intros Hq. pose proof (filter_length_le (fun v => negb (uid v =? uid u)%nat) (queue ss)).
    lia.
  - unfold bind, engine_drop, modify. rewrite Hss.
    destruct (dispatch_eq (onerror u) e
                (with_speechSynthesis
                   (Some (mkSynth (filter (fun v => negb (uid v =? uid u)%nat) (queue ss))
                                  (voices ss))) w)) as (w' & Hd & Hs & _).
    exists w'. eexists. rewrite Hd, Hs. split; [reflexivity|]. split; [reflexivity|].
    cbn. intros Hq. pose proof (filter_length_le (fun v => negb (uid v =? uid u)%nat) (queue ss)).
    lia.
  - unfold bind, engine_voices, loadVoices, modify, bind, speechSynthesis_getVoices.
    rewrite Hss. cbn. do 2 eexists. split; [reflexivity|]. cbn. auto.
Qed.

Lemma reachable_engine (w : World) :
  reachable w ->
  exists ss, speechSynthesis w = Some ss /\ length (queue ss) <= 1.
Proof.
  induction 1 as [vs path w Hm | w ev w' Hr (ss & Hss & Hq) _ Hstep].
  - cbv in Hm. injection Hm as <-. eexists. split; [reflexivity|]. cbn. lia.
  - destruct (step_returns ev w ss Hss) as (w2 & ss' & Hs & Hss' & Hlen).
    rewrite Hs in Hstep. injection Hstep as <-.
    exists ss'. auto.
Qed.

Lemma run_returns (evs : list Event) (w : World) (ss : SpeechSynthesis) :
  speechSynthesis w = Some ss ->
  exists w' ss', run evs w = Ok (tt, w') /\ speechSynthesis w' = Some ss'.
Proof.
  revert w ss. induction evs as [|ev evs IH]; intros w ss Hss.
  - exists w, ss. split; [reflexivity|exact Hss].
  - destruct (step_returns ev w ss Hss) as (w1 & ss1 & Hs & Hss1 & _).
    destruct (IH w1 ss1 Hss1) as (w2 & ss2 & Hr & Hss2).
    exists w2, ss2. cbn [run]. unfold bind. rewrite Hs. auto.
Qed.

Lemma run_engine (evs : list Event) (w w' : World) (ss : SpeechSynthesis) :
  speechSynthesis w = Some ss ->
  run evs w = Ok (tt, w') ->
  exists ss', speechSynthesis w' = Some ss'.
Proof.
  intros Hss Hrun. destruct (run_returns evs w ss Hss) as (w2 & ss2 & Hr & Hss2).
  rewrite Hr in Hrun. injection Hrun as <-. eauto.
Qed.

(** ** One active item *)

Lemma isPlaying_iff (item : Item) (w : World) :
  isPlaying item w = true <-> playingId w = Some (item_id item).
Proof. apply strict_eq_Some_true. Qed.

Lemma playing_absent (w : World) (id : string) (items : list Item) :
  playingId w = Some id ->
  ~ In id (map item_id items) ->
  filter (fun item => isPlaying item w) items = [].
Proof.
  intros Hid Hnot. apply filter_none. intros item Hitem.
  destruct (isPlaying item w) eqn:E; [|reflexivity].
  apply isPlaying_iff in E. exfalso. apply Hnot.
  apply in_map_iff. exists item. split; [congruence|exact Hitem].
Qed.

Lemma at_most_one_active_always (w : World) : at_most_one_active w.
Proof.
  split.
  - intros a b Ha Hb. apply isPlaying_iff in Ha, Hb. congruence.
  - induction items as [|item items IH]; intros Hnd; cbn; [lia|].
    inversion Hnd as [|? ? Hnot Hnd']; subst.
    destruct (isPlaying item w) eqn:E.
    + apply isPlaying_iff in E. rewrite (playing_absent w _ items E Hnot). cbn. lia.
    + apply IH. exact Hnd'.
Qed.

(** C2. In every reachable world the active slot marks at most one item and
    the engine holds at most one utterance. Every event (play, stop, the
    buttons, start, end and error notifications) is handled without an
    exception and leads to a world with the same two properties; after a
    start notification that marks [id], the playing items are exactly those
    with id [id]. *)
Theorem one_active_at_a_time (w : World) :
  reachable w ->
  at_most_one_active w
  /\ length (pending w) <= 1
  /\ forall ev, admissible ev ->
       exists w', step ev w = Ok (tt, w')
                  /\ at_most_one_active w'
                  /\ length (pending w') <= 1
                  /\ forall id, starts id ev ->
                       forall item, isPlaying item w' = true <-> item_id item = id.
Proof.
  intros Hr. destruct (reachable_engine w Hr) as (ss & Hss & Hq).
  split; [apply at_most_one_active_always|].
  split; [unfold pending; rewrite Hss; exact Hq|].
  intros ev Hev.
  destruct (step_returns ev w ss Hss) as (w' & ss' & Hs & Hss' & _).
  exists w'. split; [exact Hs|].
  split; [apply at_most_one_active_always|].
  destruct (reachable_engine w' (reachable_step w ev w' Hr Hev Hs)) as (ss2 & Hss2 & Hq2).
  split; [unfold pending; rewrite Hss2; exact Hq2|].
  intros id (u & -> & Hon) item.
  cbn [step] in Hs. rewrite Hon in Hs. cbn in Hs. injection Hs as <-.
  rewrite isPlaying_iff. cbn. split; congruence.
Qed.

Lemma sample_page_reachable : reachable sample_page.
Proof. apply (reachable_mount sample_voices "/azkar/azkar_morning"). reflexivity. Qed.

Lemma m2_utterance_from_play : from_play m2_utterance.
Proof. do 3 eexists. reflexivity. Qed.

Lemma busy_page_reachable : reachable busy_page.
Proof.
  apply (reachable_step _ (Started m2_utterance) _
           (reachable_step _ (Play (item_id m2) (item_text m2)) _
              sample_page_reachable I eq_refl)).
  - exact m2_utterance_from_play.
  - reflexivity.
Qed.

Lemma one_active_at_a_time_witness :
  reachable busy_page
  /\ at_most_one_active busy_page
  /\ length (pending busy_page) <= 1
  /\ forall ev, admissible ev ->
       exists w', step ev busy_page = Ok (tt, w')
                  /\ at_most_one_active w'
                  /\ length (pending w') <= 1
                  /\ forall id, starts id ev ->
                       forall item, isPlaying item w' = true <-> item_id item = id.
Proof.
  split; [exact busy_page_reachable|].
  apply (one_active_at_a_time busy_page). exact busy_page_reachable.
Defined.

(** ** Preemption *)

(** C3. With speech synthesis present and [a <> b]: after [play a ta],
    whatever happens next, [play b tb] returns and leaves in the engine no
    utterance of [a] (every queued utterance is one of [b]); the start
    notification of a queued utterance leaves [b] in the active slot and no
    item of id [a] playing. Unless [b] itself was marked active at the second
    request, exactly the utterance of [b] is queued. *)
Theorem play_preempts (w : World) (ss : SpeechSynthesis) (a ta b tb : string)
        (evs : list Event) (w1 : World) :
  speechSynthesis w = Some ss ->
  a <> b ->
  run (Play a ta :: evs) w = Ok (tt, w1) ->
  exists w2,
    play b tb w1 = Ok (tt, w2)
    /\ ~ In (utterance_of a ta w) (pending w2)
    /\ (forall u, In u (pending w2) ->
          onstart u = Some (SetPlaying b)
          /\ exists w3, step (Started u) w2 = Ok (tt, w3)
                        /\ playingId w3 = Some b
                        /\ forall item, item_id item = a -> isPlaying item w3 = false)
    /\ (playingId w1 <> Some b -> pending w2 = [utterance_of b tb w1]).
Proof.
  intros Hss Hab Hrun.
  destruct (run_engine _ _ _ _ Hss Hrun) as (ss1 & Hss1).
  destruct (play_returns w1 ss1 b tb Hss1) as (w2 & q & Hp & Hs & Hq & _).
  exists w2. split; [exact Hp|].
  assert (Hall : forall u, In u (pending w2) -> onstart u = Some (SetPlaying b)).
  { intros u Hu. unfold pending in Hu. rewrite Hs in Hu. cbn in Hu.
    destruct Hq as [->|[-> _]]; cbn in Hu; [contradiction|].
    destruct Hu as [<-|[]]. reflexivity. }
  split; [|split].
  - intros Hin. apply Hall in Hin. cbn in Hin. congruence.
  - intros u Hu. pose proof (Hall u Hu) as Hon. split; [exact Hon|].
    cbn [step]. rewrite Hon. eexists. split; [reflexivity|].
    split; [reflexivity|].
    intros item Hitem. apply strict_eq_Some_false. cbn. congruence.
  - intros Hnot. unfold pending. rewrite Hs. cbn.
    rewrite (play_inactive_eq _ _ _ _ Hss1 Hnot) in Hp. injection Hp as <-.
    cbn in Hs. congruence.
Qed.

Lemma play_preempts_witness :
  speechSynthesis sample_page = Some sample_engine
  /\ "m2" <> "m1"
  /\ run [Play "m2" "سبحان الله وبحمده"; Started m2_utterance] sample_page
     = Ok (tt, busy_page)
  /\ exists w2,
       play "m1" "..." busy_page = Ok (tt, w2)
       /\ ~ In (utterance_of "m2" "سبحان الله وبحمده" sample_page) (pending w2)
       /\ (forall u, In u (pending w2) ->
             onstart u = Some (SetPlaying "m1")
             /\ exists w3, step (Started u) w2 = Ok (tt, w3)
                           /\ playingId w3 = Some "m1"
                           /\ forall item, item_id item = "m2" -> isPlaying item w3 = false)
       /\ (playingId busy_page <> Some "m1" -> pending w2 = [utterance_of "m1" "..." busy_page]).
Proof.
  split; [reflexivity|]. split; [discriminate|]. split; [reflexivity|].
  apply (play_preempts sample_page sample_engine "m2" "سبحان الله وبحمده" "m1" "..."
                       [Started m2_utterance] busy_page).
  - reflexivity.
  - discriminate.
  - reflexivity.
Defined.

(** ** Activation happens at the start notification *)

Lemma from_play_handlers (u : SpeechSynthesisUtterance) :
  from_play u ->
  (exists id, onstart u = Some (SetPlaying id))
  /\ onend u = Some ClearPlaying
  /\ onerror u = Some LogAndClear.
Proof.
  intros (id & found & fresh & ->). cbn. eauto.
Qed.

(** An event leaves the active slot as it was, clears it, or is the start
    notification that marks the id it now holds. *)
Lemma step_playingId (ev : Event) (w w' : World) (ss : SpeechSynthesis) :
  speechSynthesis w = Some ss ->
  admissible ev ->
  step ev w = Ok (tt, w') ->
  playingId w' = playingId w
  \/ playingId w' = None
  \/ exists id, starts id ev /\ playingId w' = Some id.
Proof.
  intros Hss Hev Hs.
  destruct ev as [id text| |item|item| |u|u|u e|vs]; cbn [step admissible] in Hs, Hev.
  - destruct (play_returns w ss id text Hss) as (w2 & q & Hp & _ & _ & Hid).
    rewrite Hp in Hs. injection Hs as <-. tauto.
  - rewrite (stop_eq _ _ Hss) in Hs. injection Hs as <-. auto.
  - rewrite (handleSpeak_eq _ _ _ Hss) in Hs. destruct (isPlaying item w).
    + rewrite (stop_eq _ _ Hss) in Hs. injection Hs as <-. auto.
    + destruct (play_returns w ss (item_id item) (item_text item) Hss)
        as (w2 & q & Hp & _ & _ & Hid).
      rewrite Hp in Hs. injection Hs as <-. tauto.
  - cbv [handleShare window_open modify] in Hs. injection Hs as <-. auto.
  - unfold handleBack, bind, get_location_pathname in Hs.
    destruct (1 <? _)%nat; injection Hs as <-; auto.
  - destruct (from_play_handlers u Hev) as ((id & Hon) & _ & _).
    rewrite Hon in Hs. injection Hs as <-.
    right. right. exists id. split; [exists u; auto|reflexivity].
  - destruct (from_play_handlers u Hev) as (_ & Hon & _).
    rewrite Hon in Hs. unfold bind, engine_drop, modify in Hs. rewrite Hss in Hs.
    injection Hs as <-. auto.
  - destruct (from_play_handlers u Hev) as (_ & _ & Hon).
    rewrite Hon in Hs. unfold bind, engine_drop, modify in Hs. rewrite Hss in Hs.
    injection Hs as <-. auto.
  - unfold bind, engine_voices, loadVoices, modify, bind, speechSynthesis_getVoices in Hs.
    rewrite Hss in Hs. cbn in Hs. injection Hs as <-. auto.
Qed.

Lemma run_keeps_inactive (id : string) (evs : list Event) :
  forall (w w' : World) (ss : SpeechSynthesis),
    speechSynthesis w = Some ss ->
    Forall admissible evs ->
    (forall ev, In ev evs -> ~ starts id ev) ->
    playingId w <> Some id ->
    run evs w = Ok (tt, w') ->
    playingId w' <> Some id.
Proof.
  induction evs as [|ev evs IH]; intros w w' ss Hss Hadm Hno Hid Hrun.
  - cbn in Hrun. injection Hrun as <-. exact Hid.
  - inversion Hadm as [|? ? Hev Hadm']; subst.
    destruct (step_returns ev w ss Hss) as (w1 & ss1 & Hs & Hss1 & _).
    cbn [run] in Hrun. unfold bind in Hrun. rewrite Hs in Hrun.
    apply (IH w1 w' ss1 Hss1 Hadm'); [intros; apply Hno; right; assumption| |exact Hrun].
    destruct (step_playingId ev w w1 ss Hss Hev Hs) as [E|[E|(j & Hst & E)]];
      rewrite E; [exact Hid|discriminate|].
    intros Heq. injection Heq as ->. apply (Hno ev); [left; reflexivity|exact Hst].
Qed.

(** C4. With speech synthesis present, [play id text] for an id that is not
    active returns with the active slot as it was and the utterance queued.
    From there no run of events without a start notification marking [id]
    makes [id] active, and that start notification does. *)
Theorem active_only_after_start (w : World) (ss : SpeechSynthesis) (id text : string) :
  speechSynthesis w = Some ss ->
  playingId w <> Some id ->
  exists w1,
    play id text w = Ok (tt, w1)
    /\ playingId w1 = playingId w
    /\ pending w1 = [utterance_of id text w]
    /\ (forall evs w2,
          Forall admissible evs ->
          (forall ev, In ev evs -> ~ starts id ev) ->
          run evs w1 = Ok (tt, w2) ->
          playingId w2 <> Some id)
    /\ exists w2, step (Started (utterance_of id text w)) w1 = Ok (tt, w2)
                  /\ playingId w2 = Some id.
Proof.
  intros Hss Hid. rewrite (play_inactive_eq _ _ _ _ Hss Hid).
  eexists. split; [reflexivity|]. split; [reflexivity|]. split; [reflexivity|]. split.
  - intros evs w2 Hadm Hno Hrun.
    eapply run_keeps_inactive; [| exact Hadm | exact Hno | | exact Hrun].
    + reflexivity.
    + exact Hid.
  - eexists. split; reflexivity.
Qed.

Lemma active_only_after_start_witness :
  speechSynthesis busy_page = Some (mkSynth [m2_utterance] sample_voices)
  /\ playingId busy_page <> Some "m1"
  /\ exists w1,
       play "m1" "..." busy_page = Ok (tt, w1)
       /\ playingId w1 = playingId busy_page
       /\ pending w1 = [utterance_of "m1" "..." busy_page]
       /\ (forall evs w2,
             Forall admissible evs ->
             (forall ev, In ev evs -> ~ starts "m1" ev) ->
             run evs w1 = Ok (tt, w2) ->
             playingId w2 <> Some "m1")
       /\ exists w2, step (Started (utterance_of "m1" "..." busy_page)) w1 = Ok (tt, w2)
                     /\ playingId w2 = Some "m1".
Proof.
  split; [reflexivity|]. split; [discriminate|].
  apply (active_only_after_start busy_page (mkSynth [m2_utterance] sample_voices) "m1" "...").
  - reflexivity.
  - discriminate.
Defined.

(** ** Stop, completion and error *)

(** C5. With speech synthesis present, [stop] returns with the engine's
    queue empty and the active id and the ref cleared, whatever the world.
    The end and the error notification of an utterance, with no call from
    anyone, leave the active id and the ref as [stop] would; the error is
    logged to the console and no alert is shown. When the engine held nothing
    but that utterance, the whole coordinator is as after [stop]. *)
Theorem completion_clears_like_stop (w : World) (ss : SpeechSynthesis)
        (u : SpeechSynthesisUtterance) (e : string) :
  speechSynthesis w = Some ss ->
  from_play u ->
  exists ws we wr,
    stop w = Ok (tt, ws)
    /\ step (Ended u) w = Ok (tt, we)
    /\ step (Errored u e) w = Ok (tt, wr)
    /\ (playingId ws = None /\ utteranceRef ws = None /\ pending ws = [])
    /\ (playingId we, utteranceRef we) = (playingId ws, utteranceRef ws)
    /\ (playingId wr, utteranceRef wr) = (playingId ws, utteranceRef ws)
    /\ alerts wr = alerts w
    /\ console_errors wr = ("TTS Error:", e) :: console_errors w
    /\ ((forall v, In v (pending w) -> uid v = uid u) ->
        coordinator we = coordinator ws /\ coordinator wr = coordinator ws).
Proof.
  intros Hss Hu. destruct (from_play_handlers u Hu) as (_ & Hend & Herr).
  rewrite (stop_eq _ _ Hss). cbn [step]. rewrite Hend, Herr.
  unfold bind, engine_drop, modify. rewrite Hss.
  do 3 eexists. split; [reflexivity|]. split; [reflexivity|]. split; [reflexivity|].
  cbn. split; [repeat split|]. repeat (split; [reflexivity|]).
  intros Hall. unfold coordinator, pending in *. rewrite Hss in Hall. cbn.
  rewrite filter_none; [split; reflexivity|].
  intros v Hv. rewrite (Hall v Hv), Nat.eqb_refl. reflexivity.
Qed.

Lemma completion_clears_like_stop_witness :
  speechSynthesis busy_page = Some (mkSynth [m2_utterance] sample_voices)
  /\ from_play m2_utterance
  /\ exists ws we wr,
       stop busy_page = Ok (tt, ws)
       /\ step (Ended m2_utterance) busy_page = Ok (tt, we)
       /\ step (Errored m2_utterance "synthesis-failed") busy_page = Ok (tt, wr)
       /\ (playingId ws = None /\ utteranceRef ws = None /\ pending ws = [])
       /\ (playingId we, utteranceRef we) = (playingId ws, utteranceRef ws)
       /\ (playingId wr, utteranceRef wr) = (playingId ws, utteranceRef ws)
       /\ alerts wr = alerts busy_page
       /\ console_errors wr = ("TTS Error:", "synthesis-failed") :: console_errors busy_page
       /\ ((forall v, In v (pending busy_page) -> uid v = uid m2_utterance) ->
           coordinator we = coordinator ws /\ coordinator wr = coordinator ws).
Proof.
  split; [reflexivity|]. split; [exact m2_utterance_from_play|].
  apply (completion_clears_like_stop busy_page (mkSynth [m2_utterance] sample_voices)
                                     m2_utterance "synthesis-failed").
  - reflexivity.
  - exact m2_utterance_from_play.
Defined.

(** ** Speech synthesis missing *)

(** In a window without [speechSynthesis] the provider's own calls throw. *)
Lemma provider_needs_speech (w : World) (id text : string) :
  speechSynthesis w = None ->
  mount w = Throw (undefined_property "getVoices")
  /\ stop w = Throw (undefined_property "cancel")
  /\ play id text w = Throw (undefined_property "cancel").
Proof.
  intros Hss. repeat split.
  - unfold mount, loadVoices, bind, speechSynthesis_getVoices. rewrite Hss. reflexivity.
  - unfold stop, bind, speechSynthesis_cancel. rewrite Hss. reflexivity.
  - unfold play, stop, bind, get_playingId, speechSynthesis_cancel.
    destruct (strict_eq (playingId w) (Some id)); rewrite Hss; reflexivity.
Qed.

(** The guard of [handleSpeak], taken alone: in a window without
    [speechSynthesis] the handler returns after one alert and changes nothing
    else. *)
Lemma handleSpeak_guard (item : Item) (w : World) :
  speechSynthesis w = None ->
  handleSpeak item w
  = Ok (tt, with_alerts ("عذراً، متصفحك لا يدعم القراءة الصوتية" :: alerts w) w).
Proof.
  intros Hss. unfold handleSpeak, bind, speechSynthesis_in_window. rewrite Hss. reflexivity.
Qed.



(** ** Identifiers missing from the store *)

Lemma find_none_iff {A} (f : A -> bool) (l : list A) :
  find f l = None <-> forall x, In x l -> f x = false.
Proof.
  split.
  - apply find_none.
  - induction l as [|a l IH]; intros H; cbn; [reflexivity|].
    rewrite (H a (or_introl eq_refl)). apply IH. intros x Hx. apply H. right. exact Hx.
Qed.

Lemma strict_eq_false_of_neq (a : string) (v : option string) :
  Some a <> v -> strict_eq (Some a) v = false.
Proof.
  destruct v as [x|]; cbn; [|reflexivity].
  intros H. apply String.eqb_neq. congruence.
Qed.

(** C7. Whatever the store: when no section has the requested id, the
    section page is the placeholder; when no section of the requested id has
    a category of the requested id, the items page is the placeholder. Both
    pages are total functions of the store and the route parameters that
    return an element: there is no exception and no navigation in them. *)
Theorem missing_identifier_renders_placeholder
        (APP_DATA : list Section) (sectionId categoryId : option string) :
  ((forall s, In s APP_DATA -> Some (section_id s) <> sectionId) ->
   SectionCategoriesPage APP_DATA sectionId = Placeholder "القسم غير موجود")
  /\ ((forall s c, In s APP_DATA -> Some (section_id s) = sectionId ->
                   In c (section_categories s) -> Some (category_id c) <> categoryId) ->
      ItemsListPage APP_DATA sectionId categoryId = Placeholder "المحتوى غير موجود").
Proof.
  split.
  - intros Hno. unfold SectionCategoriesPage.
    replace (find _ APP_DATA) with (@None Section); [reflexivity|].
    symmetry. apply find_none_iff. intros s Hs.
    apply strict_eq_false_of_neq. apply Hno. exact Hs.
  - intros Hno. unfold ItemsListPage.
    destruct (find _ APP_DATA) as [s|] eqn:Hfind; [|reflexivity].
    apply find_some in Hfind. destruct Hfind as [Hin Heq].
    replace (find _ (section_categories s)) with (@None Category); [reflexivity|].
    symmetry. apply find_none_iff. intros c Hc.
    apply strict_eq_false_of_neq. apply (Hno s c Hin); [|exact Hc].
    destruct sectionId as [x|]; cbn in Heq; [|discriminate].
    apply String.eqb_eq in Heq. congruence.
Qed.

Lemma missing_identifier_renders_placeholder_witness :
  ((forall s, In s sample_store -> Some (section_id s) <> Some "quran")
   /\ SectionCategoriesPage sample_store (Some "quran") = Placeholder "القسم غير موجود")
  /\ ((forall s c, In s sample_store -> Some (section_id s) = Some "azkar" ->
                   In c (section_categories s) -> Some (category_id c) <> Some "dua_quran")
      /\ ItemsListPage sample_store (Some "azkar") (Some "dua_quran")
         = Placeholder "المحتوى غير موجود").
Proof.
  assert (H1 : forall s, In s sample_store -> Some (section_id s) <> Some "quran").
  { intros s [<-|[<-|[]]]; discriminate. }
  assert (H2 : forall s c, In s sample_store -> Some (section_id s) = Some "azkar" ->
                           In c (section_categories s) ->
                           Some (category_id c) <> Some "dua_quran").
  { intros s c [<-|[<-|[]]] Hs; [|discriminate Hs].
    intros [<-|[]]. discriminate. }
  split; (split; [assumption|]).
  - apply (missing_identifier_renders_placeholder sample_store (Some "quran") None). exact H1.
  - apply (missing_identifier_renders_placeholder sample_store (Some "azkar") (Some "dua_quran")).
    exact H2.
Defined.

(** The scenario of the specification: [/azkar/azkar_morning] lists the
    items of that category, each card with the section id as its type. *)
Example items_page_of_the_scenario :
  ItemsListPage sample_store (Some "azkar") (Some "azkar_morning")
  = ItemsView "أذكار الصباح" [(m1, Some "azkar"); (m2, Some "azkar")].
Proof. reflexivity. Qed.

(** ** The actions a card offers *)

(** C10. Whatever the item, the active id and the copied flag: the card
    offers the listen/stop action exactly when its type is [azkar], the share
    action exactly when its type is [adiyah], and the copy action always. *)
Theorem card_actions_by_section (item : Item) (type playingId : option string)
        (copied : bool) :
  let card := ContentCard item type playingId copied in
  (offers HandleSpeak card <-> type = Some "azkar")
  /\ (offers HandleShare card <-> type = Some "adiyah")
  /\ offers HandleCopy card.
Proof.
  cbn zeta. unfold offers, ContentCard. cbn [card_actions].
  destruct (strict_eq type (Some "azkar")) eqn:Ea;
    destruct (strict_eq type (Some "adiyah")) eqn:Ed;
    strict_eq_prop;
    (split; [|split]).
  all: try (split; [intros (b & Hb & Hc)|intros Ht]).
  all: cbn in *.
  all: try (eexists; split; [left; reflexivity|reflexivity]).
  all: try (eexists; split; [right; left; reflexivity|reflexivity]).
  all: try (eexists; split; [right; right; left; reflexivity|reflexivity]).
  all: try assumption.
  all: try congruence.
  all: try (repeat (destruct Hb as [<-|Hb]); try contradiction; discriminate).
Qed.

(** ** The share link *)

Example encodeURIComponent_sample :
  encodeURIComponent "a b&c/د-_.!~*'()" = "a%20b%26c%2F%D8%AF-_.!~*'()".
Proof. reflexivity. Qed.

Lemma unreserved_is_not_percent (c : ascii) :
  uriUnreserved c = true -> Ascii.eqb c "%" = false.
Proof.
  destruct c as [[] [] [] [] [] [] [] []]; vm_compute; congruence.
Qed.

Lemma percent_escape_decodes (c : ascii) :
  let n := nat_of_ascii c in
  hexValue (hexDigit (n / 16)) = Some (n / 16)
  /\ hexValue (hexDigit (n mod 16)) = Some (n mod 16)
  /\ ascii_of_nat (16 * (n / 16) + n mod 16) = c.
Proof.
  destruct c as [[] [] [] [] [] [] [] []]; vm_compute; repeat split.
Qed.

Lemma percent_escape_safe (c : ascii) :
  forallb uriSafe
          (list_ascii_of_string
             (if uriUnreserved c then String c EmptyString else percentEncode c))
  = true.
Proof.
  destruct c as [[] [] [] [] [] [] [] []]; vm_compute; reflexivity.
Qed.

Lemma decodeBytes_encode (s : string) :
  forall fuel,
    String.length (encodeURIComponent s) <= fuel ->
    decodeBytes fuel (encodeURIComponent s) = Some s.
Proof.
  induction s as [|c rest IH]; intros fuel Hfuel.
  - destruct fuel; reflexivity.
  - cbn [encodeURIComponent] in *.
    destruct (uriUnreserved c) eqn:Hc.
    + cbn [String.append String.length] in *.
      destruct fuel as [|fuel]; [lia|].
      cbn [decodeBytes]. rewrite (unreserved_is_not_percent c Hc).
      rewrite IH by lia. reflexivity.
    + unfold percentEncode in *. cbn [String.append String.length] in *.
      destruct fuel as [|fuel]; [lia|].
      cbn [decodeBytes]. cbn [Ascii.eqb Bool.eqb].
      destruct (percent_escape_decodes c) as (Hh & Hl & Hb).
      cbn zeta in Hh, Hl, Hb. rewrite Hh, Hl, IH by lia. rewrite Hb. reflexivity.
Qed.

Lemma decode_encode (s : string) :
  decodeURIComponent (encodeURIComponent s) = Some s.
Proof. apply decodeBytes_encode. lia. Qed.

Lemma list_ascii_of_string_app (a b : string) :
  list_ascii_of_string (a ++ b) = (list_ascii_of_string a ++ list_ascii_of_string b)%list.
Proof.
  induction a as [|c a IH]; cbn; [reflexivity|]. rewrite IH. reflexivity.
Qed.

Lemma encode_safe (s : string) :
  forallb uriSafe (list_ascii_of_string (encodeURIComponent s)) = true.
Proof.
  induction s as [|c rest IH]; [reflexivity|].
  cbn [encodeURIComponent]. rewrite list_ascii_of_string_app, forallb_app, IH.
  rewrite percent_escape_safe. reflexivity.
Qed.

(** C8. For every item and world, the share action opens one window on
    [https://wa.me/?text=] followed by a payload that is the percent-encoding
    of the item's text, a blank line and the attribution: it decodes back to
    exactly that text and holds only unreserved characters and escapes. *)
Theorem share_link_payload (item : Item) (w : World) :
  exists payload,
    handleShare item w
    = Ok (tt, with_opened (("https://wa.me/?text=" ++ payload, "_blank") :: opened w) w)
    /\ payload = encodeURIComponent ((item_text item ++ blank_line) ++ attribution)
    /\ decodeURIComponent payload = Some ((item_text item ++ blank_line) ++ attribution)
    /\ forallb uriSafe (list_ascii_of_string payload) = true.
Proof.
  eexists. split; [reflexivity|]. split; [reflexivity|]. split.
  - apply decode_encode.
  - apply encode_safe.
Qed.

Example share_link_of_m1 :
  option_map opened (returned (handleShare m1 sample_page))
  = Some [("https://wa.me/?text=...%0A%0A-%20%D9%85%D9%86%20%D8%AA%D8%B7%D8%A8%D9%8A%D9%82%20%D8%B0%D9%83%D9%91%D8%B1%D9%86%D9%8A",
           "_blank")].
Proof. vm_compute. reflexivity. Qed.

(** ** Back *)

Lemma split_segment (a : string) :
  forallb (fun c => negb (Ascii.eqb c "/")) (list_ascii_of_string a) = true ->
  split "/" a = [a].
Proof.
  induction a as [|c a IH]; cbn; [reflexivity|].
  intros H. apply andb_prop in H. destruct H as [Hc Ha].
  apply negb_true_iff in Hc. rewrite Hc, (IH Ha). reflexivity.
Qed.

Lemma split_segment_slash (a rest : string) :
  forallb (fun c => negb (Ascii.eqb c "/")) (list_ascii_of_string a) = true ->
  split "/" (a ++ String "/" rest) = a :: split "/" rest.
Proof.
  induction a as [|c a IH]; cbn; [reflexivity|].
  intros H. apply andb_prop in H. destruct H as [Hc Ha].
  apply negb_true_iff in Hc. rewrite Hc, (IH Ha). reflexivity.
Qed.

Lemma handleBack_eq (w : World) :
  handleBack w =
    Ok (tt, with_location_pathname
              (match filter Boolean (split "/" (location_pathname w)) with
               | parent :: _ :: _ => "/" ++ parent
               | _ => "/"
               end) w).
Proof.
  unfold handleBack, bind, get_location_pathname.
  destruct (filter Boolean (split "/" (location_pathname w))) as [|a [|b l]]; reflexivity.
Qed.

(** C9. From [/a/b] with [a] and [b] segments, back navigates to [/a]; from
    a path with at most one segment, among them [/] and [/a], back navigates
    to [/]. *)
Theorem back_goes_to_parent (w : World) (a b : string) :
  is_segment a = true ->
  is_segment b = true ->
  (location_pathname w = "/" ++ a ++ "/" ++ b ->
   handleBack w = Ok (tt, with_location_pathname ("/" ++ a) w))
  /\ (length (filter Boolean (split "/" (location_pathname w))) <= 1 ->
      handleBack w = Ok (tt, with_location_pathname "/" w))
  /\ (location_pathname w = "/" ++ a ->
      handleBack w = Ok (tt, with_location_pathname "/" w))
  /\ (location_pathname w = "/" ->
      handleBack w = Ok (tt, with_location_pathname "/" w)).
Proof.
  intros Ha Hb. unfold is_segment in Ha, Hb.
  apply andb_prop in Ha, Hb. destruct Ha as [Ha1 Ha2], Hb as [Hb1 Hb2].
  rewrite handleBack_eq. repeat split.
  - intros ->. cbn [String.append split Ascii.eqb Bool.eqb].
    rewrite (split_segment_slash a b Ha2), (split_segment b Hb2).
    cbn [filter]. rewrite Ha1, Hb1. reflexivity.
  - intros Hlen.
    destruct (filter Boolean (split "/" (location_pathname w))) as [|x [|y l]];
      [reflexivity|reflexivity|cbn in Hlen; lia].
  - intros ->. cbn [String.append split Ascii.eqb Bool.eqb].
    rewrite (split_segment a Ha2). cbn [filter]. rewrite Ha1. reflexivity.
  - intros ->. reflexivity.
Qed.

Lemma back_goes_to_parent_witness :
  is_segment "azkar" = true
  /\ is_segment "azkar_morning" = true
  /\ location_pathname sample_page = "/" ++ "azkar" ++ "/" ++ "azkar_morning"
  /\ handleBack sample_page = Ok (tt, with_location_pathname ("/" ++ "azkar") sample_page).
Proof.
  split; [reflexivity|]. split; [reflexivity|]. split; [reflexivity|].
  apply (back_goes_to_parent sample_page "azkar" "azkar_morning"); reflexivity.
Defined.

(** * Further properties of the code *)

(** ** The voice [play] picks *)

Lemma prefix_saudi_arabic (s : string) :
  String.prefix "ar-SA" s = true -> String.prefix "ar" s = true.
Proof.
  destruct s as [|c1 [|c2 rest]]; cbn [String.prefix]; try discriminate.
  - destruct (ascii_dec "a" c1); discriminate.
  - destruct (ascii_dec "a" c1); [|discriminate].
    destruct (ascii_dec "r" c2); [|discriminate]. destruct rest; reflexivity.
Qed.

Lemma includes_saudi_arabic (s : string) :
  includes s "ar-SA" = true -> includes s "ar" = true.
Proof.
  induction s as [|c rest IH]; cbn [includes].
  - destruct (String.prefix "ar-SA" "") eqn:E; [|discriminate].
    rewrite (prefix_saudi_arabic _ E). reflexivity.
  - destruct (String.prefix "ar-SA" (String c rest)) eqn:E.
    + rewrite (prefix_saudi_arabic _ E). reflexivity.
    + intros H. rewrite (IH H). destruct (String.prefix "ar" (String c rest)); reflexivity.
Qed.

Lemma arabicVoice_cases (vs : list SpeechSynthesisVoice) :
  arabicVoice vs =
    match find is_google_arabic vs with
    | Some v => Some v
    | None => match find is_saudi vs with
              | Some v => Some v
              | None => find is_arabic vs
              end
    end.
Proof.
  unfold arabicVoice, or_else.
  change (fun v => includes (voice_lang v) "ar" && includes (voice_name v) "Google")
    with is_google_arabic.
  change (fun v => includes (voice_lang v) "ar-SA") with is_saudi.
  change (fun v => includes (voice_lang v) "ar") with is_arabic.
  destruct (find is_google_arabic vs); [reflexivity|].
  destruct (find is_saudi vs); reflexivity.
Qed.

Lemma arabicVoice_spec (vs : list SpeechSynthesisVoice) :
  match arabicVoice vs with
  | Some v => In v vs /\ is_arabic v = true
  | None => forall v, In v vs -> is_arabic v = false
  end.
Proof.
  rewrite arabicVoice_cases.
  destruct (find is_google_arabic vs) as [g|] eqn:Eg.
  - apply find_some in Eg. destruct Eg as [Hin Hg]. split; [exact Hin|].
    unfold is_google_arabic in Hg. apply andb_prop in Hg. apply Hg.
  - destruct (find is_saudi vs) as [sa|] eqn:Es.
    + apply find_some in Es. destruct Es as [Hin Hs]. split; [exact Hin|].
      apply includes_saudi_arabic. exact Hs.
    + destruct (find is_arabic vs) as [a|] eqn:Ea.
      * apply find_some in Ea. exact Ea.
      * apply find_none_iff. exact Ea.
Qed.

(** X1. The voice [play] picks is one of the voices of the browser and its
    language tag contains [ar]; none is picked exactly when no voice of the
    browser has such a tag. *)
Theorem arabicVoice_is_arabic (vs : list SpeechSynthesisVoice) :
  (forall v, arabicVoice vs = Some v -> In v vs /\ is_arabic v = true)
  /\ (arabicVoice vs = None <-> forall v, In v vs -> is_arabic v = false).
Proof.
  pose proof (arabicVoice_spec vs) as H.
  destruct (arabicVoice vs) as [v|] eqn:E.
  - split.
    + intros v' Hv'. injection Hv' as <-. exact H.
    + split; [discriminate|]. intros Hnone. destruct H as [Hin Har].
      rewrite (Hnone v Hin) in Har. discriminate.
  - split; [discriminate|]. split; [intros _; exact H|reflexivity].
Qed.

(** X2. Order of preference: when some voice is Arabic with [Google] in its
    name, such a voice is picked; when there is none but some voice is tagged
    [ar-SA], an [ar-SA] voice is picked. *)
Theorem arabicVoice_preference (vs : list SpeechSynthesisVoice)
        (candidate : SpeechSynthesisVoice) :
  In candidate vs ->
  (is_google_arabic candidate = true ->
   exists v, arabicVoice vs = Some v /\ In v vs /\ is_google_arabic v = true)
  /\ (is_saudi candidate = true ->
      exists v, arabicVoice vs = Some v /\ In v vs
                /\ (is_google_arabic v = true
                    \/ is_saudi v = true
                       /\ forall g, In g vs -> is_google_arabic g = false)).
Proof.
  intros Hin. rewrite arabicVoice_cases. split; intros Hc.
  - destruct (find is_google_arabic vs) as [g|] eqn:Eg.
    + apply find_some in Eg. exists g. split; [reflexivity|exact Eg].
    + rewrite (find_none _ _ Eg candidate Hin) in Hc. discriminate.
  - destruct (find is_google_arabic vs) as [g|] eqn:Eg.
    + apply find_some in Eg. exists g. split; [reflexivity|]. split; [apply Eg|].
      left. apply Eg.
    + destruct (find is_saudi vs) as [sa|] eqn:Es.
      * apply find_some in Es. exists sa. split; [reflexivity|]. split; [apply Es|].
        right. split; [apply Es|]. apply find_none_iff. exact Eg.
      * rewrite (find_none _ _ Es candidate Hin) in Hc. discriminate.
Qed.

Lemma arabicVoice_preference_witness :
  In (mkVoice "Majed" "ar-SA")
     [mkVoice "Google US English" "en-US"; mkVoice "Microsoft Hoda" "ar-EG";
      mkVoice "Majed" "ar-SA"]
  /\ is_saudi (mkVoice "Majed" "ar-SA") = true
  /\ exists v,
       arabicVoice [mkVoice "Google US English" "en-US"; mkVoice "Microsoft Hoda" "ar-EG";
                    mkVoice "Majed" "ar-SA"] = Some v
       /\ In v [mkVoice "Google US English" "en-US"; mkVoice "Microsoft Hoda" "ar-EG";
                mkVoice "Majed" "ar-SA"]
       /\ (is_google_arabic v = true
           \/ is_saudi v = true
              /\ forall g, In g [mkVoice "Google US English" "en-US";
                                 mkVoice "Microsoft Hoda" "ar-EG";
                                 mkVoice "Majed" "ar-SA"] ->
                           is_google_arabic g = false).
Proof.
  assert (Hin : In (mkVoice "Majed" "ar-SA")
                   [mkVoice "Google US English" "en-US"; mkVoice "Microsoft Hoda" "ar-EG";
                    mkVoice "Majed" "ar-SA"]).
  { right. right. left. reflexivity. }
  split; [exact Hin|]. split; [reflexivity|].
  apply (arabicVoice_preference _ _ Hin). reflexivity.
Defined.

(** ** What the engine holds *)

Lemma utterance_of_well_spoken (id text : string) (w : World) :
  well_spoken (utterance_of id text w).
Proof.
  split.
  - unfold configured. cbn. repeat split. exists id. reflexivity.
  - intros v. unfold utterance_of, configure. cbn [utt_voice].
    pose proof (arabicVoice_spec
                  (match speechSynthesis w with Some ss => voices ss | None => [] end)) as H.
    destruct (arabicVoice _) as [a|]; [|discriminate].
    intros Hv. injection Hv as <-. apply H.
Qed.

(** How an event changes the queue and the ref: both are cleared, or a
    [play] put its utterance in both, or the queue shrank and the ref was
    cleared, or neither changed. *)
Lemma step_queue_ref (ev : Event) (w w' : World) (ss : SpeechSynthesis) :
  speechSynthesis w = Some ss ->
  admissible ev ->
  step ev w = Ok (tt, w') ->
  (pending w' = [] /\ utteranceRef w' = None)
  \/ (exists id text, pending w' = [utterance_of id text w]
                      /\ utteranceRef w' = Some (utterance_of id text w))
  \/ ((forall u, In u (pending w') -> In u (pending w)) /\ utteranceRef w' = None)
  \/ (pending w' = pending w /\ utteranceRef w' = utteranceRef w).
Proof.
  intros Hss Hev Hs.
  assert (Hplay : forall id text,
             play id text w = Ok (tt, w') ->
             (pending w' = [] /\ utteranceRef w' = None)
             \/ (exists id text, pending w' = [utterance_of id text w]
                                 /\ utteranceRef w' = Some (utterance_of id text w))
             \/ ((forall u, In u (pending w') -> In u (pending w)) /\ utteranceRef w' = None)
             \/ (pending w' = pending w /\ utteranceRef w' = utteranceRef w)).
  { intros id text Hp. destruct (strict_eq (playingId w) (Some id)) eqn:E; strict_eq_prop.
    - rewrite (play_active_eq _ _ _ E), (stop_eq _ _ Hss) in Hp. injection Hp as <-.
      left. split; reflexivity.
    - rewrite (play_inactive_eq _ _ _ _ Hss E) in Hp. injection Hp as <-.
      right. left. exists id, text. split; reflexivity. }
  destruct ev as [id text| |item|item| |u|u|u e|vs]; cbn [step admissible] in Hs, Hev.
  - exact (Hplay id text Hs).
  - rewrite (stop_eq _ _ Hss) in Hs. injection Hs as <-. left. split; reflexivity.
  - rewrite (handleSpeak_eq _ _ _ Hss) in Hs. destruct (isPlaying item w).
    + rewrite (stop_eq _ _ Hss) in Hs. injection Hs as <-. left. split; reflexivity.
    + exact (Hplay _ _ Hs).
  - cbv [handleShare window_open modify] in Hs. injection Hs as <-.
    right. right. right. split; reflexivity.
  - rewrite handleBack_eq in Hs. injection Hs as <-.
    right. right. right. split; reflexivity.
  - destruct (from_play_handlers u Hev) as ((id & Hon) & _ & _).
    rewrite Hon in Hs. injection Hs as <-.
    right. right. right. split; reflexivity.
  - destruct (from_play_handlers u Hev) as (_ & Hon & _).
    rewrite Hon in Hs. unfold bind, engine_drop, modify in Hs. rewrite Hss in Hs.
    injection Hs as <-. right. right. left. split; [|reflexivity].
    unfold pending. rewrite Hss. cbn. intros v Hv. apply filter_In in Hv. apply Hv.
  - destruct (from_play_handlers u Hev) as (_ & _ & Hon).
    rewrite Hon in Hs. unfold bind, engine_drop, modify in Hs. rewrite Hss in Hs.
    injection Hs as <-. right. right. left. split; [|reflexivity].
    unfold pending. rewrite Hss. cbn. intros v Hv. apply filter_In in Hv. apply Hv.
  - unfold bind, engine_voices, loadVoices, modify, bind, speechSynthesis_getVoices in Hs.
    rewrite Hss in Hs. cbn in Hs. injection Hs as <-.
    right. right. right. unfold pending. rewrite Hss. split; reflexivity.
Qed.

(** X3. In every reachable world, each utterance in the engine was
    configured by [play]: language [ar-SA], rate 0.85, the three callbacks
    installed, and a voice, when it has one, whose language tag contains
    [ar]. Whenever the ref holds an utterance, the engine holds exactly that
    one. *)
Theorem engine_holds_configured_utterances (w : World) :
  reachable w ->
  (forall u, In u (pending w) -> well_spoken u)
  /\ (forall u, utteranceRef w = Some u -> pending w = [u]).
Proof.
  induction 1 as [vs path w Hm | w ev w' Hr [IHq IHr] Hev Hstep].
  - cbv in Hm. injection Hm as <-. split.
    + intros u [].
    + intros u Hu. discriminate Hu.
  - destruct (reachable_engine w Hr) as (ss & Hss & _).
    destruct (step_queue_ref ev w w' ss Hss Hev Hstep)
      as [[Hq Href]|[(id & text & Hq & Href)|[[Hq Href]|[Hq Href]]]].
    + rewrite Hq, Href. split; [intros u []|discriminate].
    + rewrite Hq, Href. split.
      * intros u [<-|[]]. apply utterance_of_well_spoken.
      * intros u Hu. injection Hu as <-. reflexivity.
    + rewrite Href. split; [|discriminate].
      intros u Hu. apply IHq. apply Hq. exact Hu.
    + rewrite Hq, Href. split; assumption.
Qed.

Lemma engine_holds_configured_utterances_witness :
  reachable busy_page
  /\ (forall u, In u (pending busy_page) -> well_spoken u)
  /\ (forall u, utteranceRef busy_page = Some u -> pending busy_page = [u]).
Proof.
  split; [exact busy_page_reachable|].
  apply (engine_holds_configured_utterances busy_page). exact busy_page_reachable.
Defined.

(** ** Notifications of an utterance that is no longer the current one *)

Lemma preempted_page_reached :
  run [Play "m1" "..."; Started m1_utterance] busy_page = Ok (tt, preempted_page).
Proof. reflexivity. Qed.

(** X4. The end and error callbacks do not look at which utterance they
    belong to: the notification of an utterance [u] clears the active id and
    the ref even while another utterance [v] stays in the engine. *)
Theorem late_notification_clears_active (w : World) (ss : SpeechSynthesis)
        (u v : SpeechSynthesisUtterance) (e : string) :
  speechSynthesis w = Some ss ->
  from_play u ->
  In v (pending w) ->
  uid v <> uid u ->
  exists w1 w2,
    step (Ended u) w = Ok (tt, w1)
    /\ step (Errored u e) w = Ok (tt, w2)
    /\ (playingId w1 = None /\ utteranceRef w1 = None /\ In v (pending w1))
    /\ (playingId w2 = None /\ utteranceRef w2 = None /\ In v (pending w2)).
Proof.
  intros Hss Hu Hv Hne. destruct (from_play_handlers u Hu) as (_ & Hend & Herr).
  cbn [step]. rewrite Hend, Herr. unfold bind, engine_drop, modify. rewrite Hss.
  do 2 eexists. split; [reflexivity|]. split; [reflexivity|].
  unfold pending in *. rewrite Hss in Hv. cbn.
  assert (Hkeep : In v (filter (fun x => negb (uid x =? uid u)%nat) (queue ss))).
  { apply filter_In. split; [exact Hv|].
    apply negb_true_iff. apply Nat.eqb_neq. exact Hne. }
  repeat split; assumption.
Qed.

Lemma late_notification_clears_active_witness :
  speechSynthesis preempted_page = Some (mkSynth [m1_utterance] sample_voices)
  /\ from_play m2_utterance
  /\ In m1_utterance (pending preempted_page)
  /\ uid m1_utterance <> uid m2_utterance
  /\ exists w1 w2,
       step (Ended m2_utterance) preempted_page = Ok (tt, w1)
       /\ step (Errored m2_utterance "interrupted") preempted_page = Ok (tt, w2)
       /\ (playingId w1 = None /\ utteranceRef w1 = None /\ In m1_utterance (pending w1))
       /\ (playingId w2 = None /\ utteranceRef w2 = None /\ In m1_utterance (pending w2)).
Proof.
  assert (Hin : In m1_utterance (pending preempted_page)) by (left; reflexivity).
  assert (Hne : uid m1_utterance <> uid m2_utterance) by discriminate.
  split; [reflexivity|]. split; [exact m2_utterance_from_play|].
  split; [exact Hin|]. split; [exact Hne|].
  apply (late_notification_clears_active preempted_page
           (mkSynth [m1_utterance] sample_voices) m2_utterance m1_utterance "interrupted");
    [reflexivity|exact m2_utterance_from_play|exact Hin|exact Hne].
Defined.

(** ** What a run of events shows to the user *)

Lemma step_effects (ev : Event) (w w' : World) (ss : SpeechSynthesis) :
  speechSynthesis w = Some ss ->
  admissible ev ->
  is_share ev = false ->
  step ev w = Ok (tt, w') ->
  alerts w' = alerts w
  /\ opened w' = opened w
  /\ length (console_errors w') = length (console_errors w) + (if is_error ev then 1 else 0).
Proof.
  intros Hss Hev Hsh Hs.
  assert (Hplay : forall id text,
             play id text w = Ok (tt, w') ->
             alerts w' = alerts w
             /\ opened w' = opened w
             /\ length (console_errors w') = length (console_errors w) + 0).
  { intros id text Hp. destruct (strict_eq (playingId w) (Some id)) eqn:E; strict_eq_prop.
    - rewrite (play_active_eq _ _ _ E), (stop_eq _ _ Hss) in Hp. injection Hp as <-.
      cbn. repeat split; lia.
    - rewrite (play_inactive_eq _ _ _ _ Hss E) in Hp. injection Hp as <-.
      cbn. repeat split; lia. }
  destruct ev as [id text| |item|item| |u|u|u e|vs];
    cbn [step admissible is_error is_share] in *.
  - exact (Hplay id text Hs).
  - rewrite (stop_eq _ _ Hss) in Hs. injection Hs as <-. cbn. repeat split; lia.
  - rewrite (handleSpeak_eq _ _ _ Hss) in Hs. destruct (isPlaying item w).
    + rewrite (stop_eq _ _ Hss) in Hs. injection Hs as <-. cbn. repeat split; lia.
    + exact (Hplay _ _ Hs).
  - discriminate Hsh.
  - rewrite handleBack_eq in Hs. injection Hs as <-. cbn. repeat split; lia.
  - destruct (from_play_handlers u Hev) as ((id & Hon) & _ & _).
    rewrite Hon in Hs. injection Hs as <-. cbn. repeat split; lia.
  - destruct (from_play_handlers u Hev) as (_ & Hon & _).
    rewrite Hon in Hs. unfold bind, engine_drop, modify in Hs. rewrite Hss in Hs.
    injection Hs as <-. cbn. repeat split; lia.
  - destruct (from_play_handlers u Hev) as (_ & _ & Hon).
    rewrite Hon in Hs. unfold bind, engine_drop, modify in Hs. rewrite Hss in Hs.
    injection Hs as <-. cbn. repeat split; lia.
  - unfold bind, engine_voices, loadVoices, modify, bind, speechSynthesis_getVoices in Hs.
    rewrite Hss in Hs. cbn in Hs. injection Hs as <-. cbn. repeat split; lia.
Qed.

(** X5. With speech synthesis present, a run of events other than clicks on
    share returns and never shows an alert, whatever errors the browser
    reports, and opens no window; it adds one console entry per error
    notification. *)
Theorem run_reports_errors_to_console_only (evs : list Event) :
  forall (w : World) (ss : SpeechSynthesis),
    speechSynthesis w = Some ss ->
    Forall admissible evs ->
    Forall (fun ev => is_share ev = false) evs ->
    exists w',
      run evs w = Ok (tt, w')
      /\ alerts w' = alerts w
      /\ opened w' = opened w
      /\ length (console_errors w')
         = length (console_errors w) + length (filter is_error evs).
Proof.
  induction evs as [|ev evs IH]; intros w ss Hss Hadm Hsh.
  - exists w. cbn. repeat split; lia.
  - inversion Hadm as [|? ? Hev Hadm']; subst.
    inversion Hsh as [|? ? Hev' Hsh']; subst.
    destruct (step_returns ev w ss Hss) as (w1 & ss1 & Hs & Hss1 & _).
    destruct (step_effects ev w w1 ss Hss Hev Hev' Hs) as (Ha & Ho & Hc).
    destruct (IH w1 ss1 Hss1 Hadm' Hsh') as (w' & Hr & Ha' & Ho' & Hc').
    exists w'. cbn [run]. unfold bind. rewrite Hs. split; [exact Hr|].
    split; [congruence|]. split; [congruence|]. cbn [filter].
    destruct (is_error ev); cbn [length]; lia.
Qed.

Lemma run_reports_errors_to_console_only_witness :
  speechSynthesis busy_page = Some (mkSynth [m2_utterance] sample_voices)
  /\ Forall admissible [Errored m2_utterance "synthesis-failed"; Speak m1]
  /\ Forall (fun ev => is_share ev = false) [Errored m2_utterance "synthesis-failed"; Speak m1]
  /\ exists w',
       run [Errored m2_utterance "synthesis-failed"; Speak m1] busy_page = Ok (tt, w')
       /\ alerts w' = alerts busy_page
       /\ opened w' = opened busy_page
       /\ length (console_errors w')
          = length (console_errors busy_page)
            + length (filter is_error [Errored m2_utterance "synthesis-failed"; Speak m1]).
Proof.
  assert (Hadm : Forall admissible [Errored m2_utterance "synthesis-failed"; Speak m1]).
  { repeat constructor. exact m2_utterance_from_play. }
  assert (Hsh : Forall (fun ev => is_share ev = false)
                       [Errored m2_utterance "synthesis-failed"; Speak m1]).
  { repeat constructor. }
  split; [reflexivity|]. split; [exact Hadm|]. split; [exact Hsh|].
  apply (run_reports_errors_to_console_only _ busy_page
           (mkSynth [m2_utterance] sample_voices)); [reflexivity|exact Hadm|exact Hsh].
Defined.

(** ** Mounting and unmounting the provider *)

(** X6. In a window without [speechSynthesis] the mount effect of the
    provider throws; every reachable world therefore has the engine, and
    there the cleanup of the effect returns and leaves the engine silent. *)
Theorem provider_lifecycle (w : World) :
  (forall path, mount (page_load None path) = Throw (undefined_property "getVoices"))
  /\ (reachable w ->
      speechSynthesis w <> None
      /\ exists w', unmount w = Ok (tt, w') /\ pending w' = []
                    /\ playingId w' = playingId w).
Proof.
  split; [reflexivity|].
  intros Hr. destruct (reachable_engine w Hr) as (ss & Hss & _).
  split; [congruence|].
  unfold unmount, speechSynthesis_cancel, pending. rewrite Hss.
  eexists. split; [reflexivity|]. split; reflexivity.
Qed.

Lemma provider_lifecycle_witness :
  reachable busy_page
  /\ speechSynthesis busy_page <> None
  /\ exists w', unmount busy_page = Ok (tt, w') /\ pending w' = []
                /\ playingId w' = playingId busy_page.
Proof.
  split; [exact busy_page_reachable|].
  apply (provider_lifecycle busy_page). exact busy_page_reachable.
Defined.

(** ** The listen button and its handler *)

(** X7. On a card of type [azkar], with speech synthesis present, the
    listen button does what it shows: when it shows the stop square, the
    click returns with nothing active and the engine silent; when it shows
    the speaker, the click queues the utterance of the card's text and leaves
    the active id as it was. *)
Theorem speak_button_acts_as_shown (item : Item) (w : World) (ss : SpeechSynthesis)
        (copied : bool) (b : ActionButton) :
  speechSynthesis w = Some ss ->
  In b (card_actions (ContentCard item (Some "azkar") (playingId w) copied)) ->
  onClick b = HandleSpeak ->
  exists w',
    handleSpeak item w = Ok (tt, w')
    /\ ((icon b = Square /\ label b = "إيقاف" /\ variant b = "primary"
         /\ playingId w' = None /\ pending w' = [])
        \/ (icon b = Volume2 /\ label b = "استماع" /\ variant b = "secondary"
            /\ playingId w' = playingId w
            /\ pending w' = [utterance_of (item_id item) (item_text item) w])).
Proof.
  intros Hss Hb Hclick. rewrite (handleSpeak_eq _ _ _ Hss).
  unfold ContentCard in Hb. cbn [card_actions strict_eq] in Hb.
  rewrite String.eqb_refl in Hb.
  replace (String.eqb "azkar" "adiyah") with false in Hb by reflexivity.
  cbn [app In] in Hb. unfold isPlaying.
  destruct Hb as [<-|[<-|[]]]; [|discriminate Hclick].
  destruct (strict_eq (playingId w) (Some (item_id item))) eqn:E; strict_eq_prop.
  - rewrite (stop_eq _ _ Hss). eexists. split; [reflexivity|]. left. cbn. repeat split.
  - rewrite (play_inactive_eq _ _ _ _ Hss E). eexists. split; [reflexivity|].
    right. cbn. repeat split.
Qed.

Lemma speak_button_acts_as_shown_witness :
  speechSynthesis busy_page = Some (mkSynth [m2_utterance] sample_voices)
  /\ In (mkButton Square "إيقاف" HandleSpeak "primary")
        (card_actions (ContentCard m2 (Some "azkar") (playingId busy_page) false))
  /\ exists w',
       handleSpeak m2 busy_page = Ok (tt, w')
       /\ ((Square = Square /\ "إيقاف" = "إيقاف" /\ "primary" = "primary"
            /\ playingId w' = None /\ pending w' = [])
           \/ (Square = Volume2 /\ "إيقاف" = "استماع" /\ "primary" = "secondary"
               /\ playingId w' = playingId busy_page
               /\ pending w' = [utterance_of (item_id m2) (item_text m2) busy_page])).
Proof.
  assert (Hin : In (mkButton Square "إيقاف" HandleSpeak "primary")
                   (card_actions (ContentCard m2 (Some "azkar") (playingId busy_page) false))).
  { left. reflexivity. }
  split; [reflexivity|]. split; [exact Hin|].
  apply (speak_button_acts_as_shown m2 busy_page (mkSynth [m2_utterance] sample_voices)
                                    false (mkButton Square "إيقاف" HandleSpeak "primary"));
    [reflexivity|exact Hin|reflexivity].
Defined.

(** ** More on back *)

Lemma split_parts_slash_free (s : string) :
  forall part, In part (split "/" s) ->
               forallb (fun c => negb (Ascii.eqb c "/")) (list_ascii_of_string part) = true.
Proof.
  induction s as [|c rest IH]; intros part Hpart; cbn [split] in Hpart.
  - destruct Hpart as [<-|[]]. reflexivity.
  - destruct (Ascii.eqb c "/") eqn:Ec.
    + destruct Hpart as [<-|Hpart]; [reflexivity|]. apply IH. exact Hpart.
    + destruct (split "/" rest) as [|seg segs] eqn:Es.
      * destruct Hpart as [<-|[]]. cbn. rewrite Ec. reflexivity.
      * destruct Hpart as [<-|Hpart].
        -- cbn. rewrite Ec. cbn. apply IH. left. reflexivity.
        -- apply IH. right. exact Hpart.
Qed.

Lemma segments_are_segments (s seg : string) :
  In seg (filter Boolean (split "/" s)) -> is_segment seg = true.
Proof.
  intros H. apply filter_In in H. destruct H as [Hin Hb].
  unfold is_segment. rewrite Hb. apply (split_parts_slash_free s seg Hin).
Qed.

Lemma segments_of_single (seg : string) :
  is_segment seg = true -> filter Boolean (split "/" ("/" ++ seg)) = [seg].
Proof.
  intros H. unfold is_segment in H. apply andb_prop in H. destruct H as [H1 H2].
  cbn [String.append split Ascii.eqb Bool.eqb]. rewrite (split_segment seg H2).
  cbn [filter]. rewrite H1. reflexivity.
Qed.

(** X9. From any path at all, one back lands on [/] or on [/] followed by
    one segment, the first of the path; a second back lands on [/]. *)
Theorem back_twice_reaches_home (w : World) :
  exists p,
    handleBack w = Ok (tt, with_location_pathname p w)
    /\ (p = "/"
        \/ exists seg rest,
            filter Boolean (split "/" (location_pathname w)) = seg :: rest
            /\ is_segment seg = true /\ p = "/" ++ seg)
    /\ run [Back; Back] w = Ok (tt, with_location_pathname "/" w).
Proof.
  cbn [run step]. unfold bind. rewrite handleBack_eq.
  destruct (filter Boolean (split "/" (location_pathname w))) as [|a [|b l]] eqn:E.
  - exists "/". split; [reflexivity|]. split; [left; reflexivity|]. reflexivity.
  - exists "/". split; [reflexivity|]. split; [left; reflexivity|]. reflexivity.
  - assert (Ha : is_segment a = true).
    { apply (segments_are_segments (location_pathname w)). rewrite E. left. reflexivity. }
    exists ("/" ++ a). split; [reflexivity|]. split.
    + right. exists a, (b :: l). auto.
    + rewrite handleBack_eq. cbn [location_pathname with_location_pathname].
      rewrite (segments_of_single a Ha). reflexivity.
Qed.

Lemma split_nonempty (s : string) : split "/" s <> [].
Proof.
  destruct s as [|c rest]; cbn [split]; [discriminate|].
  destruct (Ascii.eqb c "/"); [discriminate|].
  destruct (split "/" rest); discriminate.
Qed.

Lemma split_trailing_slash (s : string) :
  split "/" (s ++ "/") = (split "/" s ++ [""])%list.
Proof.
  induction s as [|c rest IH]; [reflexivity|].
  cbn [String.append split]. destruct (Ascii.eqb c "/").
  - rewrite IH. reflexivity.
  - rewrite IH. pose proof (split_nonempty rest) as Hne.
    destruct (split "/" rest) as [|seg segs]; [contradiction|]. reflexivity.
Qed.

(** X10. Empty segments do not count: with one more slash in front of the
    path or behind it, back navigates to the same place. *)
Theorem back_ignores_extra_slashes (w : World) (p : string) :
  let target path :=
    option_map location_pathname (returned (handleBack (with_location_pathname path w))) in
  target ("/" ++ p) = target p /\ target (p ++ "/") = target p.
Proof.
  cbn beta zeta. rewrite !handleBack_eq. cbn [returned option_map location_pathname
                                          with_location_pathname].
  split.
  - cbn [String.append split Ascii.eqb Bool.eqb filter Boolean String.eqb negb].
    reflexivity.
  - rewrite split_trailing_slash, filter_app. cbn [filter Boolean String.eqb negb].
    rewrite app_nil_r. reflexivity.
Qed.

(** ** From the section page to the items page *)

Lemma find_by_id {A} (key : A -> string) (l : list A) (x : A) :
  NoDup (map key l) ->
  In x l ->
  find (fun y => strict_eq (Some (key y)) (Some (key x))) l = Some x.
Proof.
  induction l as [|y l IH]; intros Hnd Hin; [contradiction|].
  cbn [map] in Hnd. inversion Hnd as [|? ? Hnot Hnd']; subst.
  cbn [find strict_eq]. destruct (String.eqb (key y) (key x)) eqn:E.
  - apply String.eqb_eq in E. destruct Hin as [->|Hin]; [reflexivity|].
    exfalso. apply Hnot. rewrite E. apply in_map. exact Hin.
  - destruct Hin as [->|Hin]; [rewrite String.eqb_refl in E; discriminate|].
    apply IH; assumption.
Qed.

Lemma find_first_match {A} (f : A -> bool) (before after : list A) (x : A) :
  (forall y, In y before -> f y = false) ->
  f x = true ->
  find f (before ++ x :: after) = Some x.
Proof.
  intros Hb Hx. induction before as [|y before IH]; cbn [app find].
  - rewrite Hx. reflexivity.
  - rewrite (Hb y (or_introl eq_refl)). apply IH. intros z Hz. apply Hb. right. exact Hz.
Qed.

(** X11. Every category card of a section page navigates to [/] section
    [/] category, and the items page for these two identifiers is never the
    placeholder. *)
Theorem category_card_leads_to_items
        (APP_DATA : list Section) (sectionId : option string)
        (title description : string) (cards : list (Category * string))
        (cat : Category) (target : string) :
  SectionCategoriesPage APP_DATA sectionId = CategoriesView title description cards ->
  In (cat, target) cards ->
  target = "/" ++ template sectionId ++ "/" ++ category_id cat
  /\ exists header items,
      ItemsListPage APP_DATA sectionId (Some (category_id cat)) = ItemsView header items
      /\ forall item type, In (item, type) items -> type = sectionId.
Proof.
  unfold SectionCategoriesPage, ItemsListPage. intros Hpage Hcard.
  destruct (find _ APP_DATA) as [s|]; [|discriminate].
  injection Hpage as _ _ <-.
  apply in_map_iff in Hcard. destruct Hcard as (c & Hc & Hin). injection Hc as -> <-.
  split; [reflexivity|].
  destruct (find (fun c0 => strict_eq (Some (category_id c0)) (Some (category_id cat)))
                 (section_categories s)) as [found|] eqn:Ef.
  - do 2 eexists. split; [reflexivity|].
    intros item type Hit. apply in_map_iff in Hit. destruct Hit as (i & Hi & _).
    injection Hi as _ <-. reflexivity.
  - exfalso. pose proof (find_none _ _ Ef cat Hin) as Hno. cbn in Hno.
    rewrite String.eqb_refl in Hno. discriminate.
Qed.

Lemma category_card_leads_to_items_witness :
  SectionCategoriesPage sample_store (Some "adiyah")
  = CategoriesView "قسم الأدعية" "أدعية من القرآن والسنة"
                   [(mkCategory "dua_quran" "أدعية قرآنية" None [d1], "/adiyah/dua_quran")]
  /\ In (mkCategory "dua_quran" "أدعية قرآنية" None [d1], "/adiyah/dua_quran")
        [(mkCategory "dua_quran" "أدعية قرآنية" None [d1], "/adiyah/dua_quran")]
  /\ "/adiyah/dua_quran" = "/" ++ template (Some "adiyah") ++ "/" ++ "dua_quran"
  /\ exists header items,
       ItemsListPage sample_store (Some "adiyah") (Some "dua_quran") = ItemsView header items
       /\ forall item type, In (item, type) items -> type = Some "adiyah".
Proof.
  assert (Hin : In (mkCategory "dua_quran" "أدعية قرآنية" None [d1], "/adiyah/dua_quran")
                   [(mkCategory "dua_quran" "أدعية قرآنية" None [d1], "/adiyah/dua_quran")]).
  { left. reflexivity. }
  split; [reflexivity|]. split; [exact Hin|].
  apply (category_card_leads_to_items sample_store (Some "adiyah")
           "قسم الأدعية" "أدعية من القرآن والسنة" _ _ _ eq_refl Hin).
Defined.

Lemma handleBack_two_segments (w : World) (a b : string) :
  is_segment a = true ->
  is_segment b = true ->
  handleBack (with_location_pathname ("/" ++ a ++ "/" ++ b) w)
  = Ok (tt, with_location_pathname ("/" ++ a) w).
Proof.
  intros Ha Hb. unfold is_segment in Ha, Hb.
  apply andb_prop in Ha, Hb. destruct Ha as [Ha1 Ha2], Hb as [Hb1 Hb2].
  rewrite handleBack_eq. cbn [location_pathname with_location_pathname].
  cbn [String.append split Ascii.eqb Bool.eqb].
  rewrite (split_segment_slash a b Ha2), (split_segment b Hb2).
  cbn [filter]. rewrite Ha1, Hb1. reflexivity.
Qed.

(** X12. Where the pathname is the path a category card of a section page
    hands to [navigate], back navigates to the path of that section, when
    both identifiers are path segments (not empty, no slash). *)
Theorem back_from_category_card_target
        (APP_DATA : list Section) (sectionId : string)
        (title description : string) (cards : list (Category * string))
        (cat : Category) (target : string) (w : World) :
  SectionCategoriesPage APP_DATA (Some sectionId) = CategoriesView title description cards ->
  In (cat, target) cards ->
  is_segment sectionId = true ->
  is_segment (category_id cat) = true ->
  location_pathname w = target ->
  handleBack w = Ok (tt, with_location_pathname ("/" ++ sectionId) w).
Proof.
  unfold SectionCategoriesPage. intros Hpage Hcard Hs Hc Hpath.
  destruct (find _ APP_DATA) as [s|]; [|discriminate].
  injection Hpage as _ _ <-.
  apply in_map_iff in Hcard. destruct Hcard as (c & Hcq & _). injection Hcq as -> <-.
  cbn [template] in Hpath.
  rewrite <- (handleBack_two_segments w sectionId (category_id cat) Hs Hc).
  f_equal. destruct w; cbn in *; subst; reflexivity.
Qed.

Lemma back_from_category_card_target_witness :
  SectionCategoriesPage sample_store (Some "adiyah")
  = CategoriesView "قسم الأدعية" "أدعية من القرآن والسنة"
                   [(mkCategory "dua_quran" "أدعية قرآنية" None [d1], "/adiyah/dua_quran")]
  /\ is_segment "adiyah" = true
  /\ is_segment "dua_quran" = true
  /\ location_pathname (page_load (Some sample_engine) "/adiyah/dua_quran")
     = "/adiyah/dua_quran"
  /\ handleBack (page_load (Some sample_engine) "/adiyah/dua_quran")
     = Ok (tt, with_location_pathname ("/" ++ "adiyah")
                 (page_load (Some sample_engine) "/adiyah/dua_quran")).
Proof.
  split; [reflexivity|]. split; [reflexivity|]. split; [reflexivity|].
  split; [reflexivity|].
  apply (back_from_category_card_target sample_store "adiyah" "قسم الأدعية"
           "أدعية من القرآن والسنة"
           [(mkCategory "dua_quran" "أدعية قرآنية" None [d1], "/adiyah/dua_quran")]
           (mkCategory "dua_quran" "أدعية قرآنية" None [d1]) "/adiyah/dua_quran");
    [reflexivity|left; reflexivity|reflexivity|reflexivity|reflexivity].
Defined.

(** X13. In a store whose sections have distinct ids, for a section [s] of
    the store whose categories have distinct ids and a category [c] of [s]:
    the section page shows the title, the description and one card per
    category of [s], in order; the items page shows the title of [c] and one
    card per item of [c], in order, each of type the id of [s]. *)
Theorem pages_show_what_the_store_holds
        (APP_DATA : list Section) (s : Section) (c : Category) :
  NoDup (map section_id APP_DATA) ->
  In s APP_DATA ->
  NoDup (map category_id (section_categories s)) ->
  In c (section_categories s) ->
  SectionCategoriesPage APP_DATA (Some (section_id s))
  = CategoriesView (section_title s) (section_description s)
                   (map (fun cat => (cat, "/" ++ section_id s ++ "/" ++ category_id cat))
                        (section_categories s))
  /\ ItemsListPage APP_DATA (Some (section_id s)) (Some (category_id c))
     = ItemsView (category_title c)
                 (map (fun item => (item, Some (section_id s))) (category_items c)).
Proof.
  intros Hnd Hs Hndc Hc. unfold SectionCategoriesPage, ItemsListPage.
  rewrite (find_by_id section_id APP_DATA s Hnd Hs).
  rewrite (find_by_id category_id (section_categories s) c Hndc Hc).
  split; reflexivity.
Qed.

Lemma pages_show_what_the_store_holds_witness :
  NoDup (map section_id sample_store)
  /\ In (mkSection "azkar" "قسم الأذكار" "أذكار الصباح، المساء، النوم وغيرها"
                   [ mkCategory "azkar_morning" "أذكار الصباح" (Some "sun") [m1; m2] ])
        sample_store
  /\ ItemsListPage sample_store (Some "azkar") (Some "azkar_morning")
     = ItemsView "أذكار الصباح" [(m1, Some "azkar"); (m2, Some "azkar")].
Proof.
  assert (Hnd : NoDup (map section_id sample_store)).
  { repeat constructor; cbn; intuition discriminate. }
  assert (Hin : In (mkSection "azkar" "قسم الأذكار" "أذكار الصباح، المساء، النوم وغيرها"
                      [ mkCategory "azkar_morning" "أذكار الصباح" (Some "sun") [m1; m2] ])
                   sample_store) by (left; reflexivity).
  split; [exact Hnd|]. split; [exact Hin|].
  apply (pages_show_what_the_store_holds sample_store _
           (mkCategory "azkar_morning" "أذكار الصباح" (Some "sun") [m1; m2]) Hnd Hin).
  - repeat constructor. cbn. intuition.
  - left. reflexivity.
Defined.

(** X14. The lookup takes the first match: the sections that come after the
    first one with the requested id have no influence on either page. *)
Theorem later_sections_are_shadowed
        (before after : list Section) (s : Section) (categoryId : option string) :
  (forall x, In x before -> section_id x <> section_id s) ->
  SectionCategoriesPage (before ++ s :: after) (Some (section_id s))
  = SectionCategoriesPage [s] (Some (section_id s))
  /\ ItemsListPage (before ++ s :: after) (Some (section_id s)) categoryId
     = ItemsListPage [s] (Some (section_id s)) categoryId.
Proof.
  intros Hb. unfold SectionCategoriesPage, ItemsListPage.
  rewrite (find_first_match _ before after s).
  - cbn [find strict_eq]. rewrite String.eqb_refl. split; reflexivity.
  - intros y Hy. cbn. apply String.eqb_neq. apply Hb. exact Hy.
  - cbn. apply String.eqb_refl.
Qed.

Lemma later_sections_are_shadowed_witness :
  (forall x, In x [] -> section_id x <> "azkar")
  /\ ItemsListPage
       ([] ++ mkSection "azkar" "first" "" [mkCategory "azkar_morning" "one" None [m1]]
           :: [mkSection "azkar" "second" "" [mkCategory "azkar_evening" "two" None [m2]]])
       (Some "azkar") (Some "azkar_evening")
     = ItemsListPage [mkSection "azkar" "first" "" [mkCategory "azkar_morning" "one" None [m1]]]
                     (Some "azkar") (Some "azkar_evening").
Proof.
  split; [intros x []|].
  apply (later_sections_are_shadowed
           [] [mkSection "azkar" "second" "" [mkCategory "azkar_evening" "two" None [m2]]]
           (mkSection "azkar" "first" "" [mkCategory "azkar_morning" "one" None [m1]])
           (Some "azkar_evening")).
  intros x [].
Defined.

(** ** Share links tell texts apart *)

Lemma append_cancel_left (p a b : string) : p ++ a = p ++ b -> a = b.
Proof.
  induction p as [|c p IH]; cbn; intros H; [exact H|].
  injection H as H. apply IH. exact H.
Qed.

Lemma list_ascii_of_string_inj (a b : string) :
  list_ascii_of_string a = list_ascii_of_string b -> a = b.
Proof.
  intros H. rewrite <- (string_of_list_ascii_of_string a),
              <- (string_of_list_ascii_of_string b), H. reflexivity.
Qed.

Lemma append_cancel_right (a b s : string) : a ++ s = b ++ s -> a = b.
Proof.
  intros H. apply list_ascii_of_string_inj.
  apply (f_equal list_ascii_of_string) in H.
  rewrite !list_ascii_of_string_app in H.
  apply app_inv_tail in H. exact H.
Qed.

Lemma encodeURIComponent_inj (a b : string) :
  encodeURIComponent a = encodeURIComponent b -> a = b.
Proof.
  intros H. apply (f_equal decodeURIComponent) in H.
  rewrite !decode_encode in H. injection H as H. exact H.
Qed.

(** X15. Items with different texts get different share links. *)
Theorem share_links_tell_texts_apart (i1 i2 : Item) (w1 w2 : World) :
  item_text i1 <> item_text i2 ->
  exists url1 url2,
    handleShare i1 w1 = Ok (tt, with_opened ((url1, "_blank") :: opened w1) w1)
    /\ handleShare i2 w2 = Ok (tt, with_opened ((url2, "_blank") :: opened w2) w2)
    /\ url1 <> url2.
Proof.
  intros Hne. do 2 eexists. split; [reflexivity|]. split; [reflexivity|].
  intros Heq. apply Hne.
  apply append_cancel_left in Heq. apply encodeURIComponent_inj in Heq.
  apply append_cancel_right in Heq. apply append_cancel_right in Heq. exact Heq.
Qed.

Lemma share_links_tell_texts_apart_witness :
  item_text m1 <> item_text d1
  /\ exists url1 url2,
       handleShare m1 sample_page
       = Ok (tt, with_opened ((url1, "_blank") :: opened sample_page) sample_page)
       /\ handleShare d1 sample_page
          = Ok (tt, with_opened ((url2, "_blank") :: opened sample_page) sample_page)
       /\ url1 <> url2.
Proof.
  assert (Hne : item_text m1 <> item_text d1) by discriminate.
  split; [exact Hne|].
  apply (share_links_tell_texts_apart m1 d1 sample_page sample_page Hne).
Defined.

(** ** Icons of the categories *)

Ltac split_ids H :=
  repeat (destruct H as [<-|H]; [|]); try contradiction.

(** X16. On the twelve identifiers of [CategoryId] the icon resolver is
    injective and never answers with the fallback; every other identifier
    gets the fallback, the open book in the colour [text-islamic-600]. The
    size asked for is the size of the icon. *)
Theorem getIconForCategory_tells_categories_apart (size : nat) :
  (forall a b, In a CategoryIds -> In b CategoryIds ->
               getIconForCategory a size = getIconForCategory b size -> a = b)
  /\ (forall id, In id CategoryIds ->
                 getIconForCategory id size <> mkIcon Lucide.BookOpen size "text-islamic-600")
  /\ (forall id, ~ In id CategoryIds ->
                 getIconForCategory id size = mkIcon Lucide.BookOpen size "text-islamic-600")
  /\ (forall id, icon_size (getIconForCategory id size) = size).
Proof.
  split; [|split; [|split]].
  - intros a b Ha Hb. unfold CategoryIds in Ha, Hb. cbn [In] in Ha, Hb.
    split_ids Ha; split_ids Hb; cbn; intros H; try reflexivity; discriminate H.
  - intros id Hid. unfold CategoryIds in Hid. cbn [In] in Hid.
    split_ids Hid; cbn; discriminate.
  - intros id Hid. unfold getIconForCategory.
    repeat match goal with
           | |- context [String.eqb id ?k] =>
               destruct (String.eqb_spec id k) as [->|_];
               [exfalso; apply Hid; unfold CategoryIds; cbn [In]; tauto|]
           end.
    reflexivity.
  - intros id. unfold getIconForCategory.
    repeat match goal with
           | |- context [String.eqb id ?k] => destruct (String.eqb id k)
           end; reflexivity.
Qed.

(** ** The buttons of a card *)

(** X17. A card has one or two buttons, never the listen button together
    with the share button, and every button asks [ActionButton] for a variant
    its table defines. *)
Theorem card_buttons_are_well_formed (item : Item) (type playingId : option string)
        (copied : bool) :
  let buttons := card_actions (ContentCard item type playingId copied) in
  1 <= length buttons <= 2
  /\ NoDup (map onClick buttons)
  /\ ~ (In HandleSpeak (map onClick buttons) /\ In HandleShare (map onClick buttons))
  /\ forall b, In b buttons -> exists className, own_property (variant b) variants = Some className.
Proof.
  cbn zeta. unfold ContentCard. cbn [card_actions].
  destruct type as [t|]; cbn [strict_eq].
  - destruct (String.eqb_spec t "azkar") as [->|Ha].
    + cbn. split; [lia|]. split.
      * repeat constructor; cbn; intuition discriminate.
      * split; [intros [_ [H|[H|[]]]]; discriminate|].
        intros b [<-|[<-|[]]]; cbn;
          [destruct (strict_eq playingId (Some (item_id item)))|]; eexists; reflexivity.
    + destruct (String.eqb_spec t "adiyah") as [->|Hd].
      * cbn. split; [lia|]. split.
        -- repeat constructor; cbn; intuition discriminate.
        -- split; [intros [[H|[H|[]]] _]; discriminate|].
           intros b [<-|[<-|[]]]; cbn; eexists; reflexivity.
      * cbn. split; [lia|]. split.
        -- repeat constructor; cbn; intuition.
        -- split; [intros [[H|[]] _]; discriminate|].
           intros b [<-|[]]; cbn; eexists; reflexivity.
  - cbn. split; [lia|]. split.
    + repeat constructor; cbn; intuition.
    + split; [intros [[H|[]] _]; discriminate|].
      intros b [<-|[]]; cbn; eexists; reflexivity.
Qed.

(** ** Copy *)

(** X18. Without a clipboard in the navigator the copy action throws. With
    one it returns, sets the copied flag and one timer of two seconds whether
    or not the write succeeds; an allowed write leaves exactly the text of
    the item on the clipboard, a refused one leaves the clipboard as it was.
    The copy button then shows the check mark. *)
Theorem copy_marks_copied_whatever_the_outcome (item : Item) (c : CardState) :
  (navigator_clipboard c = None ->
   handleCopy item c = Throw (undefined_property "writeText"))
  /\ (forall clipboard,
        navigator_clipboard c = Some clipboard ->
        exists c',
          handleCopy item c = Ok c'
          /\ copied c' = true
          /\ timeouts c' = (timeouts c ++ [2000])%list
          /\ navigator_clipboard c'
             = Some (if write_allowed clipboard
                     then mkClipboard (Some (item_text item)) true
                     else clipboard)
          /\ forall type playingId,
               In (mkButton CheckCircle "تم النسخ" HandleCopy "secondary")
                  (card_actions (ContentCard item type playingId (copied c')))).
Proof.
  split.
  - intros H. unfold handleCopy. rewrite H. reflexivity.
  - intros clipboard H. unfold handleCopy. rewrite H.
    eexists. split; [reflexivity|]. cbn [copied timeouts navigator_clipboard].
    repeat (split; [reflexivity|]).
    intros type playingId. unfold ContentCard. cbn [card_actions].
    apply in_or_app. right. left. reflexivity.
Qed.

Lemma copy_marks_copied_whatever_the_outcome_witness :
  navigator_clipboard (mkCardState (Some (mkClipboard None false)) false [])
  = Some (mkClipboard None false)
  /\ exists c',
       handleCopy m1 (mkCardState (Some (mkClipboard None false)) false []) = Ok c'
       /\ copied c' = true
       /\ timeouts c' = ([] ++ [2000])%list
       /\ navigator_clipboard c' = Some (mkClipboard None false)
       /\ forall type playingId,
            In (mkButton CheckCircle "تم النسخ" HandleCopy "secondary")
               (card_actions (ContentCard m1 type playingId (copied c'))).
Proof.
  split; [reflexivity|].
  exact (proj2 (copy_marks_copied_whatever_the_outcome
                  m1 (mkCardState (Some (mkClipboard None false)) false []))
               (mkClipboard None false) eq_refl).
Defined.

(** X19. Timers are not cancelled: after two clicks on copy from a card with
    no timer pending, the timer of the first click resets the flag while the
    timer of the second is still pending. *)
Theorem earlier_timeout_resets_later_copy (item : Item) (c : CardState)
        (clipboard : Clipboard) :
  navigator_clipboard c = Some clipboard ->
  timeouts c = [] ->
  exists c1 c2,
    handleCopy item c = Ok c1
    /\ handleCopy item c1 = Ok c2
    /\ copied c2 = true
    /\ copied (timeout_fires c2) = false
    /\ timeouts (timeout_fires c2) = [2000].
Proof.
  intros Hc Ht. unfold handleCopy. rewrite Hc, Ht. cbn.
  do 2 eexists. split; [reflexivity|]. split; [reflexivity|]. cbn. repeat split.
Qed.

Lemma earlier_timeout_resets_later_copy_witness :
  navigator_clipboard (mkCardState (Some (mkClipboard None true)) false [])
  = Some (mkClipboard None true)
  /\ timeouts (mkCardState (Some (mkClipboard None true)) false []) = []
  /\ exists c1 c2,
       handleCopy m1 (mkCardState (Some (mkClipboard None true)) false []) = Ok c1
       /\ handleCopy m1 c1 = Ok c2
       /\ copied c2 = true
       /\ copied (timeout_fires c2) = false
       /\ timeouts (timeout_fires c2) = [2000].
Proof.
  split; [reflexivity|]. split; [reflexivity|].
  apply (earlier_timeout_resets_later_copy
           m1 (mkCardState (Some (mkClipboard None true)) false []) (mkClipboard None true));
    reflexivity.
Defined.
